(** * Lifecycle orchestration of the smart-contract monitor (app/app.go)

    A shallow embedding of [NewApp], the [AppContext] accessors and
    [app.Run], followed by the properties of the start-up sequence, of the
    task group and of the release of the durable store.

    The program is effectful and concurrent.  It is modelled by explicit
    state passing over a [World] that holds what the Go program shares
    between goroutines (the two contexts, the output collection, the
    errgroup) together with a chronological [trace] of the calls made to
    the collaborators.  What the other goroutines and the signal source do
    is an input: a schedule of [Action]s, consumed wherever the main
    goroutine can be overtaken. *)

From Stdlib Require Import List String Bool Arith Lia.
Import ListNotations.
Open Scope string_scope.
Open Scope list_scope.

Set Implicit Arguments.

(** ** Go values *)

(** A non-nil [error]; the nil error is [None] in an [option error]. *)
Definition error := string.

(** Chains, contracts and event payloads are opaque to app.go; they are
    identified by name. *)
Definition Chain := string.
Definition Contract := string.
Definition Payload := string.

(** The part of [Config] that app.go reads: [Outputs.Console] and
    [Outputs.Postgres] are pointers (nil is [None]). *)
Record ConsoleConfig := { Disabled : bool }.
Record PostgresConfig := { URL : string }.
Record OutputsConfig := {
  Console : option ConsoleConfig;
  Postgres : option PostgresConfig
}.
Record Config := { Outputs : OutputsConfig }.

(** The two contexts of [Run]: [ctx], cancelled by the shutdown handler, and
    [gctx], derived from it by [errgroup.WithContext]. *)
Inductive Ctx := CtxRun | CtxGroup.

(** zap: a [*zap.Logger] and the [*zap.SugaredLogger] made from it; a sugared
    logger carries the names given by [Named]. *)
Record ZapLogger := { zap_id : nat }.
Record SugaredLogger := { base : ZapLogger; names : list string }.

Definition Named (l : SugaredLogger) (n : string) : SugaredLogger :=
  {| base := base l; names := names l ++ [n] |}.

(** The struct [app]. *)
Record app := {
  ctx : option Ctx;
  logger : SugaredLogger;
  config : Config;
  contracts : list Contract
}.

(** The destinations that [Run] registers. *)
Inductive Output := LoggerOutput | Database.

(** The functions handed to [g.Go]. *)
Inductive Task := ChainTask (c : Chain) | ServerTask.

(** How a chain's [RunLoop] came to return: it saw the scope cancelled, or
    it gave up on an internal failure. *)
Inductive LoopEnd := LoopCancelled | LoopFailed (e : error).

Inductive Level := DebugLevel | FatalLevel.

Inductive Event :=
| EvLog (lvl : Level) (msg : string) (args : list string)
| EvSignal
| EvSetCtx (c : Ctx)
| EvNewOutputs
| EvNewLoggerOutput
| EvAdd (o : Output)
| EvNewLogHandler
| EvNewChains (cs : list Chain)
| EvNewDatabase
| EvConnect (url : string) (r : option error)
| EvMigrateSchema (cs : list Chain) (r : option error)
| EvClose
| EvGo (t : Task) (scope : option Ctx)
| EvNewServer
| EvDeliver (o : Output) (c : Chain) (p : Payload)
| EvTaskReturn (t : Task) (r : option error)
| EvWait (r : option error)
| EvSync.

(** What happens outside the main goroutine. [MainResumes] hands control
    back to the main goroutine. *)
Inductive Action :=
| Signal
| ChainEmits (c : Chain) (p : Payload)
| ChainLoopEnds (c : Chain) (r : LoopEnd)
| ServerReturns (r : option error)
| MainResumes.

Inductive Deferred := DeferClose.

(** ** Decidable equality of tasks *)

Definition Task_eq_dec (x y : Task) : {x = y} + {x <> y}.
Proof. decide equality; apply string_dec. Defined.

(** ** The collaborators

    Everything app.go calls and does not define.  Their results are inputs
    of the model. *)
Record Env := {
  (** [zap.NewProduction()]: the logger (nil is [None]) and the error. *)
  zap_NewProduction : option ZapLogger * option error;
  LoadConfigJSON : string -> Config + error;
  path_Dir : string -> string;
  LoadContracts : Config -> string -> list Contract + error;
  NewChains : Config -> list Contract -> list Chain;
  (** [db.Connect(ctx, url)] and [db.MigrateSchema(ctx, chains)]. *)
  Connect : string -> option error;
  MigrateSchema : list Chain -> option error
}.

(** ** The world *)

Record World := mkWorld {
  trace : list Event;
  sched : list Action;
  armed : bool;              (* ShutdownHandler is waiting for the signal *)
  ctx_done : bool;           (* ctx is cancelled *)
  gctx_done : bool;          (* gctx is cancelled *)
  outputs : list Output;     (* the collection behind [outputs], shared with the handler *)
  g_once : bool;             (* errgroup.Group.errOnce has fired *)
  g_err : option error;      (* errgroup.Group.err *)
  g_wg : list Task;          (* errgroup.Group.wg: started, not yet returned *)
  deferred : list Deferred   (* the defer stack of the running function *)
}.

Definition initial (s : list Action) : World :=
  mkWorld [] s false false false [] false None [] [].

Definition emit (e : Event) (w : World) : World :=
  mkWorld (trace w ++ [e]) (sched w) (armed w) (ctx_done w) (gctx_done w)
          (outputs w) (g_once w) (g_err w) (g_wg w) (deferred w).

Definition set_sched (s : list Action) (w : World) : World :=
  mkWorld (trace w) s (armed w) (ctx_done w) (gctx_done w)
          (outputs w) (g_once w) (g_err w) (g_wg w) (deferred w).

Definition set_armed (b : bool) (w : World) : World :=
  mkWorld (trace w) (sched w) b (ctx_done w) (gctx_done w)
          (outputs w) (g_once w) (g_err w) (g_wg w) (deferred w).

Definition set_ctx_done (b : bool) (w : World) : World :=
  mkWorld (trace w) (sched w) (armed w) b (gctx_done w)
          (outputs w) (g_once w) (g_err w) (g_wg w) (deferred w).

Definition set_gctx_done (b : bool) (w : World) : World :=
  mkWorld (trace w) (sched w) (armed w) (ctx_done w) b
          (outputs w) (g_once w) (g_err w) (g_wg w) (deferred w).

Definition set_outputs (os : list Output) (w : World) : World :=
  mkWorld (trace w) (sched w) (armed w) (ctx_done w) (gctx_done w)
          os (g_once w) (g_err w) (g_wg w) (deferred w).

Definition set_group (once : bool) (err : option error) (wg : list Task)
  (w : World) : World :=
  mkWorld (trace w) (sched w) (armed w) (ctx_done w) (gctx_done w)
          (outputs w) once err wg (deferred w).

Definition set_deferred (ds : list Deferred) (w : World) : World :=
  mkWorld (trace w) (sched w) (armed w) (ctx_done w) (gctx_done w)
          (outputs w) (g_once w) (g_err w) (g_wg w) ds.

(** ** The monad of a Go function body *)

Inductive Outcome (A : Type) :=
| Returned (a : A)
| Exited (code : nat)        (* os.Exit, reached through zap's Fatal calls *)
| Panicked (msg : string)
| Blocked.                   (* the main goroutine waits forever *)

Arguments Returned {A} a.
Arguments Exited {A} code.
Arguments Panicked {A} msg.
Arguments Blocked {A}.

Definition M (A : Type) := World -> Outcome A * World.

Definition ret {A} (a : A) : M A := fun w => (Returned a, w).

Definition bind {A B} (m : M A) (k : A -> M B) : M B :=
  fun w =>
    match m w with
    | (Returned a, w') => k a w'
    | (Exited c, w') => (Exited c, w')
    | (Panicked s, w') => (Panicked s, w')
    | (Blocked, w') => (Blocked, w')
    end.

Notation "x <- m ;; k" := (bind m (fun x => k))
  (at level 61, m at next level, right associativity).
Notation "m ;; k" := (bind m (fun _ => k))
  (at level 61, right associativity).

Definition act (f : World -> World) : M unit := fun w => (Returned tt, f w).
Definition log (e : Event) : M unit := act (emit e).
Definition panic {A} (msg : string) : M A := fun w => (Panicked msg, w).
Definition os_Exit {A} (code : nat) : M A := fun w => (Exited code, w).
Definition when (b : bool) (m : M unit) : M unit := if b then m else ret tt.

(** *** defer

    [defer] pushes a call; a function that returns or panics runs the
    pushed calls, last pushed first.  [os.Exit] ends the process at once:
    the pushed calls are not run. *)
Definition run_deferred (d : Deferred) : M unit :=
  match d with DeferClose => log EvClose end.

Fixpoint run_all (ds : list Deferred) : M unit :=
  match ds with
  | [] => ret tt
  | d :: rest => run_deferred d ;; run_all rest
  end.

Definition defer (d : Deferred) : M unit :=
  act (fun w => set_deferred (d :: deferred w) w).

Definition unwind : M unit :=
  fun w => run_all (deferred w) (set_deferred [] w).

Definition func {A} (body : M A) : M A :=
  fun w =>
    match body w with
    | (Returned a, w') => (unwind ;; ret a) w'
    | (Panicked s, w') => (unwind ;; panic s) w'
    | (Exited c, w') => (Exited c, w')
    | (Blocked, w') => (Blocked, w')
    end.

(** *** zap *)

(** The method [Sugar] of a zap logger starts by copying the logger it is
    called on: on a nil logger this is a nil dereference. *)
Definition Sugar (l : option ZapLogger) : M SugaredLogger :=
  match l with
  | Some z => ret {| base := z; names := [] |}
  | None => panic "invalid memory address or nil pointer dereference"
  end.

Definition Debugf (l : SugaredLogger) (msg : string) (args : list string) : M unit :=
  log (EvLog DebugLevel msg args).

(** The Fatal calls write the entry and call [os.Exit(1)]. *)
Definition Fatalf {A} (l : SugaredLogger) (msg : string) (args : list string) : M A :=
  log (EvLog FatalLevel msg args) ;; os_Exit 1.

Definition Debug (l : SugaredLogger) (msg : string) : M unit :=
  log (EvLog DebugLevel msg []).

Definition Fatalw {A} (l : SugaredLogger) (msg : string) (kvs : list string) : M A :=
  log (EvLog FatalLevel msg kvs) ;; os_Exit 1.

(** *** context *)

Definition is_done (c : Ctx) (w : World) : bool :=
  match c with CtxRun => ctx_done w | CtxGroup => gctx_done w end.

(** Cancelling a context cancels the contexts derived from it. *)
Definition cancel (c : Ctx) (w : World) : World :=
  match c with
  | CtxRun => set_gctx_done true (set_ctx_done true w)
  | CtxGroup => set_gctx_done true w
  end.

(** [context.WithCancel(context.Background())] *)
Definition context_WithCancel : M Ctx :=
  act (set_ctx_done false) ;; ret CtxRun.

(** *** The output collection and the shutdown handler *)

(** Modelled from the spec: [NewOutputs] is not in app.go.  It makes the
    Event Sink's collection of destinations, empty, ordered and shared by
    reference with whoever holds it. *)
Definition NewOutputs : M unit :=
  act (fun w => set_outputs [] (emit EvNewOutputs w)).

(** Modelled from the spec: [NewLoggerOutput] is not in app.go.  It makes
    the console destination. *)
Definition NewLoggerOutput (l : SugaredLogger) : M Output :=
  log EvNewLoggerOutput ;; ret LoggerOutput.

(** Modelled from the spec: the method [Add] of the collection is not in
    app.go.  Registration appends, keeping insertion order. *)
Definition Add (o : Output) : M unit :=
  act (fun w => set_outputs (outputs w ++ [o]) (emit (EvAdd o) w)).

(** Modelled from the spec: [NewLogHandler] is not in app.go.  The handler
    keeps the collection it is given, so a destination added later is seen
    by it. *)
Definition NewLogHandler (l : SugaredLogger) : M unit :=
  log EvNewLogHandler.

(** Modelled from the spec: the dispatch of an event by the Event Sink is
    not in app.go.  An event is delivered to every registered destination,
    in registration order; a failed delivery stops nothing. *)
Definition Dispatch (c : Chain) (p : Payload) (w : World) : World :=
  fold_left (fun w' o => emit (EvDeliver o c p) w') (outputs w) w.

(** Modelled from the spec: [ShutdownHandler] is not in app.go.  It waits
    for one termination request, calls [cancel] and returns; later requests
    find nobody waiting. *)
Definition ShutdownHandler (w : World) : World :=
  if armed w then cancel CtxRun (set_armed false (emit EvSignal w)) else w.

(** *** errgroup (golang.org/x/sync v0.1.0) *)

(** [WithContext]: a new group and a context derived from [parent]. *)
Definition errgroup_WithContext (parent : Ctx) : M Ctx :=
  act (fun w => set_gctx_done (is_done parent w) (set_group false None [] w)) ;;
  ret CtxGroup.

Fixpoint remove_one (t : Task) (ts : list Task) : list Task :=
  match ts with
  | [] => []
  | x :: rest => if Task_eq_dec t x then rest else x :: remove_one t rest
  end.

(** The goroutine started by [g.Go(f)], at the time [f] returns [r]:
    [if err := f(); err != nil { g.errOnce.Do(func() { g.err = err;
    g.cancel() }) }], then the deferred [g.done()]. *)
Definition goroutine_returns (t : Task) (r : option error) (w : World) : World :=
  let w1 := emit (EvTaskReturn t r) w in
  let w2 := match r with
            | Some e =>
                if g_once w1 then w1
                else cancel CtxGroup (set_group true (Some e) (g_wg w1) w1)
            | None => w1
            end in
  set_group (g_once w2) (g_err w2) (remove_one t (g_wg w2)) w2.

(** The function literal of the chain loop:
    [func() error { chain.RunLoop(gctx); return nil }]. *)
Definition chain_func (loop : LoopEnd) : option error :=
  let _ := loop in None.

(** [s.Run], handed to [g.Go] as it is. *)
Definition server_func (r : option error) : option error := r.

Definition running (t : Task) (w : World) : bool :=
  if in_dec Task_eq_dec t (g_wg w) then true else false.

(** One action of another goroutine.  An action of a task that is not
    running cannot happen and is skipped. *)
Definition step (a : Action) (w : World) : World :=
  match a with
  | Signal => ShutdownHandler w
  | ChainEmits c p =>
      if running (ChainTask c) w then Dispatch c p w else w
  | ChainLoopEnds c r =>
      if running (ChainTask c) w
      then goroutine_returns (ChainTask c) (chain_func r) w else w
  | ServerReturns r =>
      if running ServerTask w
      then goroutine_returns ServerTask (server_func r) w else w
  | MainResumes => w
  end.

(** The other goroutines run until the main goroutine resumes. *)
Fixpoint overtaken (s : list Action) (w : World) : World :=
  match s with
  | [] => set_sched [] w
  | MainResumes :: rest => set_sched rest w
  | a :: rest => overtaken rest (step a w)
  end.

Definition yield : M unit := act (fun w => overtaken (sched w) w).

(** [go ShutdownHandler(cancel)] *)
Definition go_ShutdownHandler : M unit :=
  act (set_armed true) ;; yield.

(** [g.Go(f)]: [g.wg.Add(1)] and a new goroutine. *)
Definition Go (t : Task) (scope : option Ctx) : M unit :=
  act (fun w => set_group (g_once w) (g_err w) (g_wg w ++ [t])
                          (emit (EvGo t scope) w)) ;;
  yield.

(** [g.wg.Wait()]: the main goroutine sleeps until every started task has
    returned; if the schedule ends first it sleeps forever. *)
Fixpoint wg_Wait (s : list Action) (w : World) : Outcome unit * World :=
  match g_wg w with
  | [] => (Returned tt, set_sched s w)
  | _ :: _ =>
      match s with
      | [] => (Blocked, set_sched [] w)
      | a :: rest => wg_Wait rest (step a w)
      end
  end.

(** [g.Wait()]: [g.wg.Wait(); g.cancel(); return g.err]. *)
Definition Wait : M (option error) :=
  (fun w => wg_Wait (sched w) w) ;;
  act (cancel CtxGroup) ;;
  r <- (fun w => (Returned (g_err w), w)) ;;
  log (EvWait r) ;;
  ret r.

(** *** The remaining constructors *)

Definition do_NewChains (E : Env) (c : Config) (l : SugaredLogger)
  (cs : list Contract) : M (list Chain) :=
  let chains := NewChains E c cs in
  log (EvNewChains chains) ;; ret chains.

Definition NewDatabase (l : SugaredLogger) : M Output :=
  log EvNewDatabase ;; ret Database.

Definition db_Connect (E : Env) (c : Ctx) (url : string) : M (option error) :=
  let r := Connect E url in
  log (EvConnect url r) ;; ret r.

Definition db_MigrateSchema (E : Env) (c : Ctx) (chains : list Chain)
  : M (option error) :=
  let r := MigrateSchema E chains in
  log (EvMigrateSchema chains r) ;; ret r.

Definition NewServer (a : app) : M unit := log EvNewServer.

Fixpoint for_range {A} (xs : list A) (body : A -> M unit) : M unit :=
  match xs with
  | [] => ret tt
  | x :: rest => body x ;; for_range rest body
  end.

(** ** app.go *)

Definition NewApp (E : Env) (configPath : string) : M app :=
  let (zapLogger, _) := zap_NewProduction E in
  logger <- Sugar zapLogger ;;
  Debugf logger "Loading config from %s..." [configPath] ;;
  match LoadConfigJSON E configPath with
  | inr err => Fatalf logger "Failed to read config file: %v" [err]
  | inl config =>
      Debug logger "Configuring contracts..." ;;
      match LoadContracts E config (path_Dir E configPath) with
      | inr err => Fatalf logger "Failed to configure contracts: %v" [err]
      | inl contracts =>
          ret {| ctx := None;
                 logger := logger;
                 config := config;
                 contracts := contracts |}
      end
  end.

Definition Context (a : app) : option Ctx := ctx a.



Definition Close (a : app) : M unit := log EvSync.

(** The condition of line 83:
    [Outputs.Console == nil || !Outputs.Console.Disabled]. *)
Definition console_wanted (c : Config) : bool :=
  match Console (Outputs c) with
  | None => true
  | Some cc => negb (Disabled cc)
  end.

Definition set_app_ctx (a : app) (c : Ctx) : app :=
  {| ctx := Some c; logger := logger a; config := config a;
     contracts := contracts a |}.

(** [Run], lines 75-118.  The two [go] statements and the calls of [g.Go]
    are the points where other goroutines can run before the main goroutine
    goes on; [Wait] is where it sleeps until they are done. *)
Definition Run (E : Env) (a0 : app) : M app :=
  func (
    (* 76-77 *)
    ctx <- context_WithCancel ;;
    go_ShutdownHandler ;;
    (* 79-80 *)
    gctx <- errgroup_WithContext ctx ;;
    let a := set_app_ctx a0 gctx in
    log (EvSetCtx gctx) ;;
    (* 82-85 *)
    NewOutputs ;;
    when (console_wanted (config a))
         (o <- NewLoggerOutput (logger a) ;; Add o) ;;
    (* 87-88 *)
    NewLogHandler (Named (logger a) "handler") ;;
    chains <- do_NewChains E (config a) (Named (logger a) "chains")
                           (contracts a) ;;
    (* 90-102 *)
    match Postgres (Outputs (config a)) with
    | Some pg =>
        db <- NewDatabase (Named (logger a) "db") ;;
        err <- db_Connect E ctx (URL pg) ;;
        match err with
        | Some _ => Fatalw (logger a) "Failed to connect Postgres"
                           ["url"; URL pg]
        | None => ret tt
        end ;;
        defer DeferClose ;;
        err <- db_MigrateSchema E ctx chains ;;
        match err with
        | Some e => Fatalw (logger a) "Database.CreateSchemas failed"
                           ["err"; e]
        | None => ret tt
        end ;;
        Add db
    | None => ret tt
    end ;;
    (* 104-111 *)
    for_range chains (fun chain => Go (ChainTask chain) (Some gctx)) ;;
    (* 113-114 *)
    NewServer a ;;
    Go ServerTask (Context a) ;;
    (* 116-118 *)
    err <- Wait ;;
    match err with
    | Some e => Fatalf (logger a) "Application error: %v" [e]
    | None => ret tt
    end ;;
    ret a
  ).


(** ** The phases of [Run]

    The body of [Run] read as three consecutive blocks: lines 76-77, lines
    79-102 and lines 104-118.  [Run_phases] below shows that [Run] is their
    sequence. *)

Definition prelude : M unit :=
  context_WithCancel ;; go_ShutdownHandler.

Definition startup (E : Env) (a0 : app) : M (list Chain) :=
  gctx <- errgroup_WithContext CtxRun ;;
  let a := set_app_ctx a0 gctx in
  log (EvSetCtx gctx) ;;
  NewOutputs ;;
  when (console_wanted (config a))
       (o <- NewLoggerOutput (logger a) ;; Add o) ;;
  NewLogHandler (Named (logger a) "handler") ;;
  chains <- do_NewChains E (config a) (Named (logger a) "chains")
                         (contracts a) ;;
  match Postgres (Outputs (config a)) with
  | Some pg =>
      db <- NewDatabase (Named (logger a) "db") ;;
      err <- db_Connect E CtxRun (URL pg) ;;
      match err with
      | Some _ => Fatalw (logger a) "Failed to connect Postgres"
                         ["url"; URL pg]
      | None => ret tt
      end ;;
      defer DeferClose ;;
      err <- db_MigrateSchema E CtxRun chains ;;
      match err with
      | Some e => Fatalw (logger a) "Database.CreateSchemas failed"
                         ["err"; e]
      | None => ret tt
      end ;;
      Add db
  | None => ret tt
  end ;;
  ret chains.

Definition finish (a : app) : M app :=
  err <- Wait ;;
  match err with
  | Some e => Fatalf (logger a) "Application error: %v" [e]
  | None => ret tt
  end ;;
  ret a.

Definition launch (a : app) (chains : list Chain) : M app :=
  for_range chains (fun chain => Go (ChainTask chain) (Some CtxGroup)) ;;
  NewServer a ;;
  Go ServerTask (Context a) ;;
  finish a.

(** The deferred calls of a returning function, as a world transformer. *)
Definition unwound (w : World) : World :=
  fold_left (fun w' d => match d with DeferClose => emit EvClose w' end)
            (deferred w) (set_deferred [] w).

(** ** What the start-up does, as data *)

Definition chains_of (E : Env) (a : app) : list Chain :=
  NewChains E (config a) (contracts a).

Definition console_events (c : Config) : list Event :=
  if console_wanted c then [EvNewLoggerOutput; EvAdd LoggerOutput] else [].

Definition store_events (E : Env) (a : app) : list Event :=
  match Postgres (Outputs (config a)) with
  | None => []
  | Some pg =>
      EvNewDatabase :: EvConnect (URL pg) (Connect E (URL pg)) ::
      match Connect E (URL pg) with
      | Some _ =>
          [EvLog FatalLevel "Failed to connect Postgres" ["url"; URL pg]]
      | None =>
          EvMigrateSchema (chains_of E a) (MigrateSchema E (chains_of E a)) ::
          match MigrateSchema E (chains_of E a) with
          | Some e =>
              [EvLog FatalLevel "Database.CreateSchemas failed" ["err"; e]]
          | None => [EvAdd Database]
          end
      end
  end.

Definition startup_events (E : Env) (a : app) : list Event :=
  [EvSetCtx CtxGroup; EvNewOutputs] ++ console_events (config a) ++
  [EvNewLogHandler; EvNewChains (chains_of E a)] ++ store_events E a.

Arguments startup_events : simpl never.

(** The store, if configured, connects and migrates. *)
Definition store_ready (E : Env) (a : app) : bool :=
  match Postgres (Outputs (config a)) with
  | None => true
  | Some pg =>
      match Connect E (URL pg) with
      | Some _ => false
      | None =>
          match MigrateSchema E (chains_of E a) with
          | Some _ => false
          | None => true
          end
      end
  end.

Definition registered (a : app) : list Output :=
  (if console_wanted (config a) then [LoggerOutput] else []) ++
  match Postgres (Outputs (config a)) with
  | Some _ => [Database]
  | None => []
  end.

(** The events of the running tasks, after a successful start-up. *)
Definition concurrent_ok (a : app) (e : Event) : Prop :=
  match e with
  | EvGo _ sc => sc = Some CtxGroup
  | EvNewServer | EvSignal => True
  | EvDeliver o _ _ => In o (registered a)
  | EvTaskReturn (ChainTask _) r => r = None
  | EvTaskReturn ServerTask _ => True
  | _ => False
  end.

(** ** Assertions on runs *)

(** How a function body can end without returning. *)
Inductive Stop := StopExit (code : nat) | StopPanic (msg : string) | StopBlocked.

Definition Assertion := World -> Prop.

Definition post {A} (Q : A -> Assertion) (X : Stop -> Assertion)
  (r : Outcome A * World) : Prop :=
  match r with
  | (Returned a, w) => Q a w
  | (Exited c, w) => X (StopExit c) w
  | (Panicked s, w) => X (StopPanic s) w
  | (Blocked, w) => X StopBlocked w
  end.

(** [triple P m Q X]: from a world in [P], [m] returns in [Q] or stops
    in [X]. *)
Definition triple {A} (P : Assertion) (m : M A) (Q : A -> Assertion)
  (X : Stop -> Assertion) : Prop :=
  forall w, P w -> post Q X (m w).

(** An assertion that no action in [ok] of another goroutine can break, and
    that does not read the schedule. *)
Definition stable (ok : Action -> Prop) (P : Assertion) : Prop :=
  (forall a w, ok a -> P w -> P (step a w)) /\
  (forall s w, P w -> P (set_sched s w)).

Definition any_action (a : Action) : Prop := True.

(** Every action still to come is in [ok]. *)
Definition plays (ok : Action -> Prop) (w : World) : Prop :=
  Forall ok (sched w).

(** Every occurrence of an event in [P] comes after a prefix in [G]. *)
Definition guarded (P : Event -> Prop) (G : list Event -> Prop)
  (tr : list Event) : Prop :=
  forall pre ev post, tr = pre ++ ev :: post -> P ev -> G pre.

Definition absent (P : Event -> Prop) (tr : list Event) : Prop :=
  forall ev, In ev tr -> ~ P ev.

(** Classes of events. *)
Definition is_start (e : Event) : Prop :=
  match e with EvGo _ _ => True | _ => False end.

Definition is_deliver (e : Event) : Prop :=
  match e with EvDeliver _ _ _ => True | _ => False end.

Definition is_deliver_to (o : Output) (e : Event) : Prop :=
  match e with EvDeliver o' _ _ => o' = o | _ => False end.

Definition is_fatal (e : Event) : Prop :=
  match e with EvLog FatalLevel _ _ => True | _ => False end.

Definition is_chains_built (e : Event) : Prop :=
  match e with EvNewChains _ => True | _ => False end.

(** The events of the durable-store path. *)
Definition is_store (e : Event) : Prop :=
  match e with
  | EvNewDatabase | EvConnect _ _ | EvMigrateSchema _ _ | EvAdd Database
  | EvClose | EvDeliver Database _ _ => True
  | _ => False
  end.

Definition is_chain_failure (e : Event) : Prop :=
  match e with EvTaskReturn (ChainTask _) (Some _) => True | _ => False end.

Definition is_go (t : Task) (e : Event) : bool :=
  match e with
  | EvGo t' _ => if Task_eq_dec t t' then true else false
  | _ => false
  end.

Definition is_ret (t : Task) (e : Event) : bool :=
  match e with
  | EvTaskReturn t' _ => if Task_eq_dec t t' then true else false
  | _ => false
  end.

(** ** Schedules under which every task returns *)

Definition ends (t : Task) (a : Action) : bool :=
  match a, t with
  | ChainLoopEnds c _, ChainTask c' => String.eqb c c'
  | ServerReturns _, ServerTask => true
  | _, _ => false
  end.

Definition is_resume (a : Action) : bool :=
  match a with MainResumes => true | _ => false end.

Definition count {A} (f : A -> bool) (l : list A) : nat :=
  List.length (filter f l).

Definition tasks_of (chains : list Chain) : list Task :=
  map ChainTask chains ++ [ServerTask].

(** The main goroutine is handed control often enough to start every task
    during [s1]; afterwards, during [s2], every chain loop ends and the
    server returns. *)
Definition all_return (chains : list Chain) (s1 s2 : list Action) : Prop :=
  List.length chains + 2 <= count is_resume s1 /\
  forall t, count_occ Task_eq_dec (tasks_of chains) t <= count (ends t) s2.

(** Whenever the server's [Run] returns, it returns [r]. *)
Definition server_returns (r : option error) (a : Action) : Prop :=
  forall r', a = ServerReturns r' -> r' = r.

(** The schedule still holds [s2] behind at least [m] resumptions of the
    main goroutine. *)
Definition budget (s2 : list Action) (m : nat) (w : World) : Prop :=
  exists r1, sched w = r1 ++ s2 /\ m <= count is_resume r1.

(** ** Sample inputs *)

Definition cfg (console : option ConsoleConfig) (pg : option PostgresConfig)
  : Config :=
  {| Outputs := {| Console := console; Postgres := pg |} |}.

Definition env0 (chains : list Chain) (conn mig : option error) : Env :=
  {| zap_NewProduction := (Some {| zap_id := 0 |}, None);
     LoadConfigJSON := fun _ => inl (cfg None None);
     path_Dir := fun p => p;
     LoadContracts := fun _ _ => inl [];
     NewChains := fun _ _ => chains;
     Connect := fun _ => conn;
     MigrateSchema := fun _ => mig |}.

Definition app0 (c : Config) : app :=
  {| ctx := None;
     logger := {| base := {| zap_id := 0 |}; names := [] |};
     config := c;
     contracts := [] |}.

Definition postgres0 : option PostgresConfig :=
  Some {| URL := "postgres://monitor" |}.

(** Several events at once. *)
Definition emits (es : list Event) (w : World) : World :=
  mkWorld (trace w ++ es) (sched w) (armed w) (ctx_done w) (gctx_done w)
          (outputs w) (g_once w) (g_err w) (g_wg w) (deferred w).

(** The world after [g.Go(f)], before anything else runs. *)
Definition go_world (t : Task) (scope : option Ctx) (w : World) : World :=
  set_group (g_once w) (g_err w) (g_wg w ++ [t]) (emit (EvGo t scope) w).

(** ** Invariants of a run *)

(** Before the group exists only the signal can have been seen. *)
Definition quiet (w : World) : Prop :=
  Forall (eq EvSignal) (trace w) /\ g_wg w = [] /\ deferred w = [].

(** The accounting of the errgroup: a task that was started has returned
    or is in the wait group; [g.err] is an error returned by the server. *)
Definition group_inv (w : World) : Prop :=
  (forall t, count (is_go t) (trace w) =
             count (is_ret t) (trace w) + count_occ Task_eq_dec (g_wg w) t) /\
  (forall e, g_err w = Some e ->
             In (EvTaskReturn ServerTask (Some e)) (trace w)) /\
  (forall e, In (EvTaskReturn ServerTask (Some e)) (trace w) ->
             g_err w <> None) /\
  (g_once w = true -> g_err w <> None).

(** What [Run] defers once the store is connected. *)
Definition closing (a : app) : list Deferred :=
  match Postgres (Outputs (config a)) with
  | Some _ => [DeferClose]
  | None => []
  end.

(** After a successful start-up: the trace is the signals seen early, the
    start-up events, and events of the running tasks. *)
Definition running_shape (E : Env) (a : app) (done : list Task) (w : World)
  : Prop :=
  exists sig conc,
    trace w = sig ++ startup_events E a ++ conc /\
    Forall (eq EvSignal) sig /\
    Forall (concurrent_ok a) conc /\
    (forall t, In t done -> In (EvGo t (Some CtxGroup)) conc) /\
    outputs w = registered a /\
    deferred w = closing a /\
    store_ready E a = true /\
    group_inv w.

(** How the last phase ends: [tail] is what follows the events of the
    tasks, [closes] what the deferred calls add. *)
Definition ended (a : app) (closes : list Event) (o : Outcome app)
  (w : World) (tail : list Event) : Prop :=
  match o with
  | Returned a' =>
      a' = set_app_ctx a CtxGroup /\
      tail = EvWait None :: closes /\
      g_err w = None /\ g_wg w = [] /\ gctx_done w = true
  | Exited c =>
      c = 1 /\
      exists e,
        tail = [EvWait (Some e);
                EvLog FatalLevel "Application error: %v" [e]] /\
        g_err w = Some e /\ g_wg w = [] /\ gctx_done w = true
  | Panicked _ => False
  | Blocked => tail = []
  end.

Definition launched_shape (E : Env) (a : app) (closes : list Event)
  (r : Outcome app * World) : Prop :=
  let (o, w) := r in
  exists sig body tail,
    trace w = sig ++ startup_events E a ++ body ++ tail /\
    Forall (eq EvSignal) sig /\
    Forall (concurrent_ok a) body /\
    (forall t, In t (tasks_of (chains_of E a)) ->
               In (EvGo t (Some CtxGroup)) body) /\
    outputs w = registered a /\
    group_inv w /\
    ended a closes o w tail.

(** How a run ends. *)
Definition run_shape (E : Env) (a : app) (r : Outcome app * World) : Prop :=
  if store_ready E a
  then launched_shape E a (map (fun _ => EvClose) (closing a)) r
  else exists sig,
         trace (snd r) = sig ++ startup_events E a /\
         Forall (eq EvSignal) sig /\
         fst r = Exited 1.

Definition stopped {A} (st : Stop) : Outcome A :=
  match st with
  | StopExit c => Exited c
  | StopPanic s => Panicked s
  | StopBlocked => Blocked
  end.

(** The tasks started so far are the only ones in the wait group, and the
    server has only returned [r0]. *)
Definition only_returns (r0 : option error) (tr : list Event) : Prop :=
  forall r, In (EvTaskReturn ServerTask r) tr -> r = r0.

Definition group_bound (r0 : option error) (done : list Task) (w : World)
  : Prop :=
  only_returns r0 (trace w) /\
  (forall t, count_occ Task_eq_dec (g_wg w) t <= count_occ Task_eq_dec done t).

(** The world in which a successful start-up leaves the one it found. *)
Definition started_world (E : Env) (a : app) (w : World) : World :=
  mkWorld (trace w ++ startup_events E a) (sched w) (armed w) (ctx_done w)
          (ctx_done w) (registered a) false None []
          (closing a ++ deferred w).

(** One action of another goroutine, case by case. *)
Inductive stepped (w : World) : Action -> World -> Prop :=
| st_skip a : stepped w a w
| st_signal :
    armed w = true ->
    stepped w Signal
      (mkWorld (trace w ++ [EvSignal]) (sched w) false true true
               (outputs w) (g_once w) (g_err w) (g_wg w) (deferred w))
| st_emit c p :
    In (ChainTask c) (g_wg w) ->
    stepped w (ChainEmits c p)
      (emits (map (fun o => EvDeliver o c p) (outputs w)) w)
| st_chain c r :
    In (ChainTask c) (g_wg w) ->
    stepped w (ChainLoopEnds c r)
      (mkWorld (trace w ++ [EvTaskReturn (ChainTask c) None]) (sched w)
               (armed w) (ctx_done w) (gctx_done w) (outputs w) (g_once w)
               (g_err w) (remove_one (ChainTask c) (g_wg w)) (deferred w))
| st_server_nil :
    In ServerTask (g_wg w) ->
    stepped w (ServerReturns None)
      (mkWorld (trace w ++ [EvTaskReturn ServerTask None]) (sched w)
               (armed w) (ctx_done w) (gctx_done w) (outputs w) (g_once w)
               (g_err w) (remove_one ServerTask (g_wg w)) (deferred w))
| st_server_first e :
    In ServerTask (g_wg w) -> g_once w = false ->
    stepped w (ServerReturns (Some e))
      (mkWorld (trace w ++ [EvTaskReturn ServerTask (Some e)]) (sched w)
               (armed w) (ctx_done w) true (outputs w) true
               (Some e) (remove_one ServerTask (g_wg w)) (deferred w))
| st_server_later e :
    In ServerTask (g_wg w) -> g_once w = true ->
    stepped w (ServerReturns (Some e))
      (mkWorld (trace w ++ [EvTaskReturn ServerTask (Some e)]) (sched w)
               (armed w) (ctx_done w) (gctx_done w) (outputs w) (g_once w)
               (g_err w) (remove_one ServerTask (g_wg w)) (deferred w)).

(** The kinds of events a start-up emits. *)
Definition startup_kind (e : Event) : Prop :=
  match e with
  | EvSetCtx _ | EvNewOutputs | EvNewLoggerOutput | EvAdd _ | EvNewLogHandler
  | EvNewChains _ | EvNewDatabase | EvConnect _ _ | EvMigrateSchema _ _
  | EvLog FatalLevel _ _ => True
  | _ => False
  end.

(** An event that the errgroup's accounting does not look at. *)
Definition untracked (e : Event) : Prop :=
  match e with
  | EvGo _ _ | EvTaskReturn _ _ => False
  | _ => True
  end.

(** What an event of a run tells about the configuration. *)
Definition run_event (a : app) (e : Event) : Prop :=
  match e with
  | EvSignal | EvSetCtx _ | EvNewOutputs | EvNewLogHandler | EvNewChains _
  | EvNewServer | EvWait _ | EvLog FatalLevel _ _ => True
  | EvNewLoggerOutput | EvAdd LoggerOutput =>
      console_wanted (config a) = true
  | EvNewDatabase | EvConnect _ _ | EvMigrateSchema _ _ | EvAdd Database
  | EvClose => Postgres (Outputs (config a)) <> None
  | EvDeliver o _ _ => In o (registered a)
  | EvGo _ sc => sc = Some CtxGroup
  | EvTaskReturn (ChainTask _) r => r = None
  | EvTaskReturn ServerTask _ => True
  | EvLog DebugLevel _ _ | EvSync => False
  end.

(** The store is connected and its schema prepared within [pre]. *)
Definition store_prepared (E : Env) (a : app) (pg : PostgresConfig)
  (pre : list Event) : Prop :=
  In (EvConnect (URL pg) None) pre /\
  In (EvMigrateSchema (chains_of E a) None) pre.

(** [E] with another result of [zap.NewProduction]. *)
Definition with_zap (E : Env) (z : option ZapLogger * option error) : Env :=
  {| zap_NewProduction := z;
     LoadConfigJSON := LoadConfigJSON E;
     path_Dir := path_Dir E;
     LoadContracts := LoadContracts E;
     NewChains := NewChains E;
     Connect := Connect E;
     MigrateSchema := MigrateSchema E |}.

(** ** Further classes of events *)

(** An event emitted by the main goroutine itself. *)
Definition main_event (e : Event) : Prop :=
  match e with
  | EvSignal | EvDeliver _ _ _ | EvTaskReturn _ _ => False
  | _ => True
  end.

Definition is_add (e : Event) : bool :=
  match e with EvAdd _ => true | _ => false end.

Definition is_handed (e : Event) : bool :=
  match e with EvGo _ _ => true | _ => false end.

Definition is_close (e : Event) : bool :=
  match e with EvClose => true | _ => false end.

(** The calls of [g.Go] for the tasks [ts], in order. *)
Definition handed (ts : list Task) : list Event :=
  map (fun t => EvGo t (Some CtxGroup)) ts.

(** The sequence of [Add] calls of a start-up: the console if wanted, then
    the store if it connected and migrated. *)
Definition added (E : Env) (a : app) : list Output :=
  (if console_wanted (config a) then [LoggerOutput] else []) ++
  match Postgres (Outputs (config a)) with
  | Some _ => if store_ready E a then [Database] else []
  | None => []
  end.

(** Every return of a task seen in [tr] is an action of the schedule [s]. *)
Definition returns_scheduled (s : list Action) (tr : list Event) : Prop :=
  forall t r, In (EvTaskReturn t r) tr ->
              exists act, In act s /\ ends t act = true.

(** The root context is done exactly when the signal was seen, and the
    signal is seen only if the schedule delivers it. *)
Definition root_follows_signal (s : list Action) (done : bool)
  (tr : list Event) : Prop :=
  (done = true <-> In EvSignal tr) /\ (In EvSignal tr -> In Signal s).

(** A sample environment whose configuration file cannot be read. *)
Definition env_unreadable : Env :=
  {| zap_NewProduction := (Some {| zap_id := 0 |}, None);
     LoadConfigJSON := fun _ => inr "open config.json: no such file";
     path_Dir := fun p => p;
     LoadContracts := fun _ _ => inl [];
     NewChains := fun _ _ => [];
     Connect := fun _ => None;
     MigrateSchema := fun _ => None |}.

(** * Reasoning rules *)

Section Rules.

Variables A B : Type.
Variable P : Assertion.
Variable X : Stop -> Assertion.

Lemma triple_ret (a : A) (Q : A -> Assertion) :
  (forall w, P w -> Q a w) -> triple P (ret a) Q X.
Proof. intros H w Hw. now apply H. Qed.

Lemma triple_act (f : World -> World) (Q : unit -> Assertion) :
  (forall w, P w -> Q tt (f w)) -> triple P (act f) Q X.
Proof. intros H w Hw. now apply H. Qed.

Lemma triple_bind (m : M A) (k : A -> M B) (R : A -> Assertion)
  (Q : B -> Assertion) :
  triple P m R X ->
  (forall a, triple (R a) (k a) Q X) ->
  triple P (bind m k) Q X.
Proof.
  intros Hm Hk w Hw. specialize (Hm w Hw). unfold bind.
  destruct (m w) as [[a | c | s | ] w']; cbn in *; auto.
  now apply Hk.
Qed.

Lemma triple_conseq (P' : Assertion) (m : M A) (Q Q' : A -> Assertion)
  (X' : Stop -> Assertion) :
  triple P' m Q' X' ->
  (forall w, P w -> P' w) ->
  (forall a w, Q' a w -> Q a w) ->
  (forall s w, X' s w -> X s w) ->
  triple P m Q X.
Proof.
  intros H HP HQ HX w Hw. specialize (H w (HP w Hw)).
  destruct (m w) as [[a | c | s | ] w']; cbn in *; auto.
Qed.

End Rules.

Lemma triple_for_range A (I : list A -> list A -> Assertion) X
  (body : A -> M unit) :
  (forall done x todo,
      triple (I done (x :: todo)) (body x) (fun _ => I (done ++ [x]) todo) X) ->
  forall todo done,
    triple (I done todo) (for_range todo body) (fun _ => I (done ++ todo) []) X.
Proof.
  intros Hbody todo. induction todo as [| x xs IH]; intros done;
    cbn [for_range].
  - apply triple_ret. intros w Hw. now rewrite app_nil_r.
  - eapply triple_bind; [apply Hbody |].
    intros []. eapply triple_conseq; [apply (IH (done ++ [x])) | auto | | auto].
    intros [] w Hw. now rewrite <- app_assoc in Hw.
Qed.

Lemma post_pair A (R : Outcome A * World -> Prop) (r : Outcome A * World) :
  post (fun a w => R (Returned a, w)) (fun st w => R (stopped st, w)) r <-> R r.
Proof. destruct r as [[a | c | s |] w]; cbn; tauto. Qed.

(** [Run] is the sequence of its phases, wrapped in its defer stack. *)
Lemma Run_phases (E : Env) (a0 : app) (w : World) :
  Run E a0 w =
  func (prelude ;; chains <- startup E a0 ;;
        launch (set_app_ctx a0 CtxGroup) chains) w.
Proof.
  unfold Run, func, prelude, startup, launch, finish.
  unfold context_WithCancel, go_ShutdownHandler, errgroup_WithContext,
    NewOutputs, NewLoggerOutput, Add, NewLogHandler, do_NewChains,
    NewDatabase, db_Connect, db_MigrateSchema, Fatalw, defer, when, log,
    NewServer, os_Exit, act, ret, bind.
  cbn.
  destruct (console_wanted (config a0));
    destruct (Postgres (Outputs (config a0))) as [pg |]; cbn;
    try destruct (Connect E (URL pg)); cbn;
    try destruct (MigrateSchema E _); cbn; reflexivity.
Qed.

(** ** Worlds *)

Lemma World_eq (w w' : World) :
  trace w = trace w' -> sched w = sched w' -> armed w = armed w' ->
  ctx_done w = ctx_done w' -> gctx_done w = gctx_done w' ->
  outputs w = outputs w' -> g_once w = g_once w' -> g_err w = g_err w' ->
  g_wg w = g_wg w' -> deferred w = deferred w' -> w = w'.
Proof. destruct w, w'; cbn; intros; subst; reflexivity. Qed.

Lemma emits_nil (w : World) : emits [] w = w.
Proof. destruct w. unfold emits. cbn. now rewrite app_nil_r. Qed.

Lemma emits_emit (e : Event) (es : list Event) (w : World) :
  emits es (emit e w) = emits (e :: es) w.
Proof. unfold emits, emit. cbn. now rewrite <- app_assoc. Qed.

Lemma Dispatch_emits (c : Chain) (p : Payload) (w : World) :
  Dispatch c p w = emits (map (fun o => EvDeliver o c p) (outputs w)) w.
Proof.
  unfold Dispatch. generalize (outputs w) as os. intros os. revert w.
  induction os as [| o os IH]; intros w; cbn.
  - now rewrite emits_nil.
  - now rewrite IH, emits_emit.
Qed.

Lemma unwound_emits (w : World) :
  unwound w = emits (map (fun _ => EvClose) (deferred w)) (set_deferred [] w).
Proof.
  unfold unwound. generalize (set_deferred [] w) as w0.
  induction (deferred w) as [| d ds IH]; intros w0; cbn.
  - now rewrite emits_nil.
  - destruct d. now rewrite IH, emits_emit.
Qed.

Lemma unwind_unwound (w : World) : unwind w = (Returned tt, unwound w).
Proof.
  unfold unwind, unwound. generalize (set_deferred [] w) as w0.
  induction (deferred w) as [| d ds IH]; intros w0; cbn; [reflexivity |].
  destruct d. unfold bind. cbn. apply IH.
Qed.

Lemma func_unwound A (body : M A) (w : World) :
  func body w =
  match body w with
  | (Returned a, w') => (Returned a, unwound w')
  | (Panicked s, w') => (Panicked s, unwound w')
  | r => r
  end.
Proof.
  unfold func, bind. destruct (body w) as [[a | c | s | ] w']; try reflexivity;
    now rewrite unwind_unwound.
Qed.

Lemma running_In (t : Task) (w : World) :
  running t w = true -> In t (g_wg w).
Proof. unfold running. now destruct (in_dec Task_eq_dec t (g_wg w)). Qed.

Lemma step_stepped (a : Action) (w : World) : stepped w a (step a w).
Proof.
  destruct a as [| c p | c r | r |]; cbn [step].
  - unfold ShutdownHandler. destruct (armed w) eqn:Ha; [| constructor].
    now apply st_signal.
  - destruct (running (ChainTask c) w) eqn:Hr; [| constructor].
    rewrite Dispatch_emits. apply st_emit. now apply running_In.
  - destruct (running (ChainTask c) w) eqn:Hr; [| constructor].
    apply (st_chain w c r). now apply running_In.
  - destruct (running ServerTask w) eqn:Hr; [| constructor].
    apply running_In in Hr. destruct r as [e |].
    + unfold goroutine_returns, server_func. cbn.
      destruct (g_once w) eqn:Ho.
      * now apply st_server_later.
      * now apply st_server_first.
    + now apply st_server_nil.
  - constructor.
Qed.

(** ** Other goroutines *)

Lemma overtaken_stable (ok : Action -> Prop) (P : Assertion) :
  stable ok P ->
  forall s w, Forall ok s -> P w ->
              P (overtaken s w) /\ plays ok (overtaken s w).
Proof.
  intros [Hstep Hsched] s. induction s as [| a s IH]; intros w Hs Hw.
  - cbn. split; [now apply Hsched | constructor].
  - inversion Hs as [| ? ? Ha Hs']; subst.
    destruct a; cbn [overtaken]; try (apply IH; [assumption | now apply Hstep]).
    split; [now apply Hsched | exact Hs'].
Qed.

Lemma any_plays (s : list Action) : Forall any_action s.
Proof. apply Forall_forall. intros; exact I. Qed.

Lemma triple_yield (P : Assertion) X :
  stable any_action P -> triple P yield (fun _ => P) X.
Proof.
  intros HP w Hw. cbn.
  apply (@overtaken_stable any_action P HP (sched w) w); [apply any_plays | exact Hw].
Qed.

Lemma count_cons A (f : A -> bool) (a : A) (l : list A) :
  count f (a :: l) = (if f a then 1 else 0) + count f l.
Proof. unfold count. cbn. now destruct (f a). Qed.

Lemma count_app A (f : A -> bool) (l1 l2 : list A) :
  count f (l1 ++ l2) = count f l1 + count f l2.
Proof. unfold count. now rewrite filter_app, length_app. Qed.

Lemma count_none A (f : A -> bool) (l : list A) :
  (forall x, In x l -> f x = false) -> count f l = 0.
Proof.
  induction l as [| x l IH]; intros H; [reflexivity |].
  rewrite count_cons, (H x (or_introl eq_refl)), IH; [reflexivity |].
  intros y Hy. apply H. now right.
Qed.

Lemma count_some A (f : A -> bool) (l : list A) :
  0 < count f l -> exists x, In x l /\ f x = true.
Proof.
  induction l as [| x l IH]; [cbn; lia |].
  rewrite count_cons. destruct (f x) eqn:Hx.
  - intros _. exists x. split; [now left | assumption].
  - intros H. destruct (IH H) as [y [Hy Hfy]]. exists y. split; [now right | assumption].
Qed.

Lemma count_In A (f : A -> bool) (l : list A) (x : A) :
  In x l -> f x = true -> 0 < count f l.
Proof.
  induction l as [| y l IH]; [contradiction |].
  intros [-> | H] Hx; rewrite count_cons.
  - rewrite Hx. lia.
  - specialize (IH H Hx). lia.
Qed.

Lemma overtaken_budget (s2 : list Action) (m : nat) :
  forall r1 w, S m <= count is_resume r1 ->
               budget s2 m (overtaken (r1 ++ s2) w).
Proof.
  intros r1. induction r1 as [| a r1 IH]; intros w Hm.
  - cbn in Hm. lia.
  - rewrite count_cons in Hm.
    destruct a; cbn [is_resume] in Hm; cbn [List.app overtaken];
      try (apply IH; lia).
    exists r1. split; [reflexivity | lia].
Qed.

Lemma triple_yield_budget (ok : Action -> Prop) (P : Assertion) X s2 m :
  stable ok P ->
  triple (fun w => P w /\ plays ok w /\ budget s2 (S m) w) yield
         (fun _ w => P w /\ plays ok w /\ budget s2 m w) X.
Proof.
  intros HP w [Hw [Hplay [r1 [Hs Hm]]]]. cbn.
  destruct (@overtaken_stable ok P HP (sched w) w Hplay Hw) as [H1 H2].
  repeat split; try assumption.
  rewrite Hs. now apply overtaken_budget.
Qed.

(** *** The wait group *)

Lemma remove_one_count (t0 : Task) (l : list Task) (t : Task) :
  In t0 l ->
  count_occ Task_eq_dec (remove_one t0 l) t +
  (if Task_eq_dec t t0 then 1 else 0) = count_occ Task_eq_dec l t.
Proof.
  induction l as [| x l IH]; [contradiction |].
  intros Hin. cbn [remove_one].
  destruct (Task_eq_dec t0 x) as [-> | Hne].
  - cbn [count_occ]. destruct (Task_eq_dec x t) as [-> | Hxt].
    + destruct (Task_eq_dec t t); [lia | congruence].
    + destruct (Task_eq_dec t x); [congruence | lia].
  - destruct Hin as [-> | Hin]; [congruence |].
    specialize (IH Hin). cbn [count_occ].
    destruct (Task_eq_dec x t); lia.
Qed.

Lemma wg_Wait_stable (ok : Action -> Prop) (P : Assertion) :
  stable ok P ->
  forall s w, Forall ok s -> P w ->
    post (fun _ w' => P w' /\ g_wg w' = [])
         (fun st w' => st = StopBlocked /\ P w')
         (wg_Wait s w).
Proof.
  intros [Hstep Hsched] s. induction s as [| a s IH]; intros w Hs Hw; cbn.
  - destruct (g_wg w) eqn:E; cbn; auto.
  - destruct (g_wg w) eqn:E; cbn; [auto |].
    inversion Hs; subst. apply IH; [assumption | now apply Hstep].
Qed.

Lemma ends_spec (t : Task) (a : Action) :
  ends t a = true <->
  (exists c r, a = ChainLoopEnds c r /\ t = ChainTask c) \/
  (exists r, a = ServerReturns r /\ t = ServerTask).
Proof.
  destruct a, t; cbn; split; intros H;
    try discriminate;
    try (destruct H as [[? [? [? ?]]] | [? [? ?]]]; discriminate);
    try reflexivity.
  - apply String.eqb_eq in H. subst. left. eauto.
  - destruct H as [[? [? [H1 H2]]] | [? [? ?]]]; [| discriminate].
    inversion H1; inversion H2; subst. apply String.eqb_refl.
  - right. eauto.
Qed.

Lemma remove_one_notin (t : Task) (l : list Task) :
  ~ In t l -> remove_one t l = l.
Proof.
  induction l as [| x l IH]; intros H; [reflexivity |].
  cbn. destruct (Task_eq_dec t x) as [-> | Hne].
  - exfalso. apply H. now left.
  - f_equal. apply IH. intros Hin. apply H. now right.
Qed.

Lemma running_false (t : Task) (w : World) :
  running t w = false -> ~ In t (g_wg w).
Proof. unfold running. now destruct (in_dec Task_eq_dec t (g_wg w)). Qed.

Lemma step_wg (a : Action) (w : World) :
  g_wg (step a w) =
  match a with
  | ChainLoopEnds c _ => remove_one (ChainTask c) (g_wg w)
  | ServerReturns _ => remove_one ServerTask (g_wg w)
  | _ => g_wg w
  end.
Proof.
  destruct a as [| c p | c r | r |]; cbn [step].
  - unfold ShutdownHandler. now destruct (armed w).
  - destruct (running (ChainTask c) w); [| reflexivity].
    now rewrite Dispatch_emits.
  - destruct (running (ChainTask c) w) eqn:Hr.
    + reflexivity.
    + symmetry. apply remove_one_notin. now apply running_false.
  - destruct (running ServerTask w) eqn:Hr.
    + unfold goroutine_returns. cbn. destruct r as [e |]; cbn; [| reflexivity].
      now destruct (g_once w).
    + symmetry. apply remove_one_notin. now apply running_false.
  - reflexivity.
Qed.

Lemma remove_one_le (t0 : Task) (l : list Task) (t : Task) :
  count_occ Task_eq_dec (remove_one t0 l) t +
  (if Task_eq_dec t t0 then 1 else 0) <=
  count_occ Task_eq_dec l t + (if Task_eq_dec t t0 then 1 else 0) /\
  count_occ Task_eq_dec (remove_one t0 l) t <=
  count_occ Task_eq_dec l t - (if Task_eq_dec t t0 then 1 else 0).
Proof.
  destruct (in_dec Task_eq_dec t0 l) as [Hin | Hout].
  - pose proof (remove_one_count t0 l t Hin). lia.
  - rewrite (@remove_one_notin t0 l Hout).
    destruct (Task_eq_dec t t0) as [-> | Hne]; [| lia].
    apply (count_occ_not_In Task_eq_dec) in Hout. lia.
Qed.

Lemma step_wg_bound (a : Action) (s : list Action) (w : World) :
  (forall t, count_occ Task_eq_dec (g_wg w) t <= count (ends t) (a :: s)) ->
  forall t, count_occ Task_eq_dec (g_wg (step a w)) t <= count (ends t) s.
Proof.
  intros H t. specialize (H t). rewrite count_cons in H. rewrite step_wg.
  destruct a as [| c p | c r | r |]; try (destruct t; cbn in H; lia).
  - pose proof (remove_one_le (ChainTask c) (g_wg w) t) as [_ Hc].
    destruct t as [c' |]; cbn [ends] in H.
    + destruct (Task_eq_dec (ChainTask c') (ChainTask c)) as [Heq | Hne].
      * inversion Heq; subst. rewrite String.eqb_refl in H. lia.
      * destruct (String.eqb c c') eqn:Hcc; [| lia].
        apply String.eqb_eq in Hcc. congruence.
    + destruct (Task_eq_dec ServerTask (ChainTask c)); [discriminate | lia].
  - pose proof (remove_one_le ServerTask (g_wg w) t) as [_ Hc].
    destruct t as [c' |]; cbn [ends] in H.
    + destruct (Task_eq_dec (ChainTask c') ServerTask); [discriminate | lia].
    + destruct (Task_eq_dec ServerTask ServerTask); [lia | congruence].
Qed.

Lemma wg_Wait_total (ok : Action -> Prop) (P : Assertion) :
  stable ok P ->
  forall s w, Forall ok s -> P w ->
    (forall t, count_occ Task_eq_dec (g_wg w) t <= count (ends t) s) ->
    post (fun _ w' => P w' /\ g_wg w' = []) (fun _ _ => False) (wg_Wait s w).
Proof.
  intros [Hstep Hsched] s. induction s as [| a s IH]; intros w Hs Hw Hb; cbn.
  - destruct (g_wg w) as [| t l] eqn:E; cbn; [auto |].
    specialize (Hb t). cbn in Hb.
    destruct (Task_eq_dec t t); [lia | congruence].
  - destruct (g_wg w) eqn:E; cbn; [auto |].
    inversion Hs; subst.
    apply IH; [assumption | now apply Hstep |].
    apply step_wg_bound. now rewrite E.
Qed.

(** ** Invariants under the actions of other goroutines *)

Lemma quiet_stable : stable any_action quiet.
Proof.
  split.
  - intros a w _ (Htr & Hwg & Hd).
    destruct (step_stepped a w) as
      [a | Ha | c p Hin | c r Hin | Hin | e Hin Ho | e Hin Ho];
      try (rewrite Hwg in Hin; contradiction).
    + now repeat split.
    + repeat split; cbn; try assumption.
      apply Forall_app. split; [assumption | now constructor].
  - intros s w H. exact H.
Qed.

Lemma count_snoc A (f : A -> bool) (l : list A) (x : A) :
  count f (l ++ [x]) = count f l + (if f x then 1 else 0).
Proof.
  unfold count. rewrite filter_app, length_app. cbn.
  destruct (f x); cbn; lia.
Qed.

Lemma count_delivers (f : Event -> bool) (c : Chain) (p : Payload)
  (os : list Output) :
  (forall o, f (EvDeliver o c p) = false) ->
  count f (map (fun o => EvDeliver o c p) os) = 0.
Proof.
  intros H. apply count_none. intros x Hx.
  apply in_map_iff in Hx. destruct Hx as [o [<- _]]. apply H.
Qed.

Lemma not_a_return (c : Chain) (p : Payload) (os : list Output) (t : Task)
  (r : option error) :
  ~ In (EvTaskReturn t r) (map (fun o => EvDeliver o c p) os).
Proof.
  intros H. apply in_map_iff in H. destruct H as [o [H _]]. discriminate.
Qed.

Lemma group_inv_stable : stable any_action group_inv.
Proof.
  split; [| intros s w H; exact H].
  intros a w _ (HK & HJ1 & HJ2 & HO).
  destruct (step_stepped a w) as
    [a | Ha | c p Hin | c r Hin | Hin | e Hin Ho | e Hin Ho];
    unfold group_inv; cbn [trace g_err g_once g_wg emits].
  - now repeat split.
  - repeat split; try assumption.
    + intros t. rewrite !count_snoc. cbn. rewrite HK. lia.
    + intros e He. apply in_or_app. left. now apply HJ1.
    + intros e He. apply in_app_or in He.
      destruct He as [He | [He | []]]; [exact (HJ2 _ He) | discriminate].
  - repeat split; try assumption.
    + intros t. rewrite !count_app, !count_delivers by reflexivity.
      rewrite HK. lia.
    + intros e He. apply in_or_app. left. now apply HJ1.
    + intros e He. apply in_app_or in He.
      destruct He as [He | He]; [exact (HJ2 _ He) |].
      now apply not_a_return in He.
  - repeat split; try assumption.
    + intros t. rewrite !count_snoc. cbn [is_go is_ret]. rewrite HK.
      pose proof (remove_one_count (ChainTask c) (g_wg w) t Hin).
      destruct (Task_eq_dec t (ChainTask c)); lia.
    + intros e He. apply in_or_app. left. now apply HJ1.
    + intros e He. apply in_app_or in He.
      destruct He as [He | [He | []]]; [exact (HJ2 _ He) | discriminate].
  - repeat split; try assumption.
    + intros t. rewrite !count_snoc. cbn [is_go is_ret]. rewrite HK.
      pose proof (remove_one_count ServerTask (g_wg w) t Hin).
      destruct (Task_eq_dec t ServerTask); lia.
    + intros e He. apply in_or_app. left. now apply HJ1.
    + intros e He. apply in_app_or in He.
      destruct He as [He | [He | []]]; [exact (HJ2 _ He) | discriminate].
  - repeat split; try discriminate.
    + intros t. rewrite !count_snoc. cbn [is_go is_ret]. rewrite HK.
      pose proof (remove_one_count ServerTask (g_wg w) t Hin).
      destruct (Task_eq_dec t ServerTask); lia.
    + intros e' He. inversion He; subst. apply in_or_app. right. now left.
  - repeat split; try assumption.
    + intros t. rewrite !count_snoc. cbn [is_go is_ret]. rewrite HK.
      pose proof (remove_one_count ServerTask (g_wg w) t Hin).
      destruct (Task_eq_dec t ServerTask); lia.
    + intros e' He. apply in_or_app. left. now apply HJ1.
    + intros e' _. now apply HO.
Qed.

Lemma group_bound_stable (r0 : option error) (done : list Task) :
  stable (server_returns r0) (group_bound r0 done).
Proof.
  split; [| intros s w H; exact H].
  intros a w Hok [Hr Hb]. split.
  - destruct (step_stepped a w) as
      [a | Ha | c p Hin | c r Hin | Hin | e Hin Ho | e Hin Ho];
      cbn [trace emits]; try assumption;
      intros r' Hin'; apply in_app_or in Hin';
      destruct Hin' as [Hin' | Hin']; try (now apply Hr);
      try (now apply not_a_return in Hin');
      destruct Hin' as [Hin' | []]; try discriminate;
      inversion Hin'; subst; apply Hok; reflexivity.
  - intros t. rewrite step_wg.
    destruct a as [| c p | c r | r |]; try apply Hb.
    + pose proof (remove_one_le (ChainTask c) (g_wg w) t) as [_ Hc].
      specialize (Hb t). lia.
    + pose proof (remove_one_le ServerTask (g_wg w) t) as [_ Hc].
      specialize (Hb t). lia.
Qed.

Lemma running_shape_extend (E : Env) (a : app) (done done' : list Task)
  (w w' : World) (es : list Event) :
  running_shape E a done w ->
  trace w' = trace w ++ es ->
  Forall (concurrent_ok a) es ->
  (forall t, In t done' -> In t done \/ In (EvGo t (Some CtxGroup)) es) ->
  outputs w' = outputs w ->
  deferred w' = deferred w ->
  group_inv w' ->
  running_shape E a done' w'.
Proof.
  intros (sig & conc & Htr & Hsig & Hconc & Hdone & Hout & Hdef & Hready & _)
         Htr' Hes Hdone' Hout' Hdef' Hg.
  exists sig, (conc ++ es).
  split; [rewrite Htr', Htr; rewrite <- !app_assoc; reflexivity |].
  split; [assumption |].
  split; [apply Forall_app; now split |].
  split.
  { intros t Ht. apply in_or_app.
    destruct (Hdone' t Ht) as [H | H]; [left; now apply Hdone | now right]. }
  repeat (split; [congruence |]). exact Hg.
Qed.

Lemma running_shape_group (E : Env) (a : app) (done : list Task) (w : World) :
  running_shape E a done w -> group_inv w.
Proof. intros (sig & conc & H). apply H. Qed.

Lemma delivers_ok (a : app) (c : Chain) (p : Payload) (os : list Output) :
  incl os (registered a) ->
  Forall (concurrent_ok a) (map (fun o => EvDeliver o c p) os).
Proof.
  intros H. apply Forall_forall. intros e He.
  apply in_map_iff in He. destruct He as [o [<- Ho]]. cbn. now apply H.
Qed.

Lemma running_shape_stable (E : Env) (a : app) (done : list Task) :
  stable any_action (running_shape E a done).
Proof.
  split; [| intros s w H; exact H].
  intros act w _ H.
  pose proof (proj1 group_inv_stable act w I (running_shape_group H)) as Hg.
  pose proof (step_stepped act w) as Hs.
  set (w' := step act w) in *. clearbody w'.
  assert (Hout : outputs w = registered a)
    by (destruct H as (sig & conc & H); apply H).
  destruct Hs as [act | Ha | c p Hin | c r Hin | Hin | e Hin Ho | e Hin Ho].
  - exact H.
  - apply (@running_shape_extend E a done done w _ ([EvSignal]) H); auto.
    repeat constructor.
  - apply (@running_shape_extend E a done done w _ (map (fun o => EvDeliver o c p) (outputs w)) H); auto.
    apply delivers_ok. rewrite Hout. apply incl_refl.
  - apply (@running_shape_extend E a done done w _ ([EvTaskReturn (ChainTask c) None]) H); auto.
    repeat constructor.
  - apply (@running_shape_extend E a done done w _ ([EvTaskReturn ServerTask None]) H); auto.
    repeat constructor.
  - apply (@running_shape_extend E a done done w _ ([EvTaskReturn ServerTask (Some e)]) H); auto.
    repeat constructor.
  - apply (@running_shape_extend E a done done w _ ([EvTaskReturn ServerTask (Some e)]) H); auto.
    repeat constructor.
Qed.

(** ** The phases, one by one *)

Lemma prelude_initial (s : list Action) :
  prelude (initial s) =
  (Returned tt, overtaken s (mkWorld [] s true false false [] false None [] [])).
Proof. reflexivity. Qed.

Lemma prelude_quiet (s : list Action) :
  exists w, prelude (initial s) = (Returned tt, w) /\ quiet w.
Proof.
  eexists. split; [apply prelude_initial |].
  apply (@overtaken_stable any_action quiet quiet_stable); [apply any_plays |].
  repeat split. constructor.
Qed.

Lemma startup_ready (E : Env) (a : app) (w : World) :
  store_ready E a = true ->
  startup E a w = (Returned (chains_of E a), started_world E a w).
Proof.
  unfold store_ready, startup, started_world, startup_events, console_events,
    store_events, registered, closing, chains_of.
  unfold errgroup_WithContext, NewOutputs, NewLoggerOutput, Add,
    NewLogHandler, do_NewChains, NewDatabase, db_Connect, db_MigrateSchema,
    Fatalw, defer, when, log, os_Exit, act, ret, bind.
  cbn.
  destruct (console_wanted (config a));
    destruct (Postgres (Outputs (config a))) as [pg |]; cbn;
    try destruct (Connect E (URL pg)); cbn;
    try destruct (MigrateSchema E _); cbn; intros H; try discriminate;
    f_equal; apply World_eq; cbn; try reflexivity;
    repeat rewrite <- app_assoc; reflexivity.
Qed.

Lemma startup_fails (E : Env) (a : app) (w : World) :
  store_ready E a = false ->
  exists w', startup E a w = (Exited 1, w') /\
             trace w' = trace w ++ startup_events E a.
Proof.
  unfold store_ready, startup, startup_events, console_events,
    store_events, chains_of.
  unfold errgroup_WithContext, NewOutputs, NewLoggerOutput, Add,
    NewLogHandler, do_NewChains, NewDatabase, db_Connect, db_MigrateSchema,
    Fatalw, defer, when, log, os_Exit, act, ret, bind.
  cbn.
  destruct (console_wanted (config a));
    destruct (Postgres (Outputs (config a))) as [pg |]; cbn;
    try destruct (Connect E (URL pg)); cbn;
    try destruct (MigrateSchema E _); cbn; intros H; try discriminate;
    eexists; (split; [reflexivity |]); cbn;
    repeat rewrite <- app_assoc; reflexivity.
Qed.

Lemma Go_eq (t : Task) (sc : option Ctx) (w : World) :
  Go t sc w = (Returned tt, overtaken (sched w) (go_world t sc w)).
Proof. reflexivity. Qed.

Lemma wg_Wait_outcome (s : list Action) (w : World) :
  fst (wg_Wait s w) = Returned tt \/ fst (wg_Wait s w) = Blocked.
Proof.
  revert w. induction s as [| a s IH]; intros w; cbn;
    destruct (g_wg w); cbn; auto.
Qed.

Lemma finish_eq (a : app) (w : World) :
  finish a w =
  match wg_Wait (sched w) w with
  | (Returned _, w') =>
      match g_err w' with
      | Some e =>
          (Exited 1,
           emit (EvLog FatalLevel "Application error: %v" [e])
                (emit (EvWait (Some e)) (cancel CtxGroup w')))
      | None => (Returned a, emit (EvWait None) (cancel CtxGroup w'))
      end
  | (o, w') => (stopped match o with
                        | Exited c => StopExit c
                        | Panicked m => StopPanic m
                        | _ => StopBlocked
                        end, w')
  end.
Proof.
  unfold finish, Wait, Fatalf, log, os_Exit, act, ret, bind.
  destruct (wg_Wait (sched w) w) as [[[] | c | m |] w']; cbn; try reflexivity.
  destruct (g_err w'); reflexivity.
Qed.

Lemma startup_events_kind (E : Env) (a : app) :
  Forall startup_kind (startup_events E a).
Proof.
  unfold startup_events, console_events, store_events.
  destruct (console_wanted (config a));
    destruct (Postgres (Outputs (config a))) as [pg |]; cbn;
    try destruct (Connect E (URL pg)); cbn;
    try destruct (MigrateSchema E _); cbn;
    repeat constructor.
Qed.

Lemma untracked_count (t : Task) (es : list Event) :
  Forall untracked es -> count (is_go t) es = 0 /\ count (is_ret t) es = 0.
Proof.
  intros H. split; apply count_none; intros e He;
    (eapply Forall_forall in H; [| exact He]); now destruct e.
Qed.

Lemma untracked_return (t : Task) (r : option error) (es : list Event) :
  Forall untracked es -> ~ In (EvTaskReturn t r) es.
Proof.
  intros H Hin. eapply Forall_forall in H; [| exact Hin]. exact H.
Qed.

Lemma group_inv_emits (es : list Event) (w : World) :
  Forall untracked es -> group_inv w -> group_inv (emits es w).
Proof.
  intros Hes (HK & HJ1 & HJ2 & HO). unfold group_inv.
  cbn [trace g_err g_once g_wg emits].
  repeat split; try assumption.
  - intros t. rewrite !count_app.
    destruct (untracked_count t Hes) as [-> ->]. rewrite HK. lia.
  - intros e He. apply in_or_app. left. now apply HJ1.
  - intros e He. apply in_app_or in He.
    destruct He as [He | He]; [exact (HJ2 _ He) |].
    now apply untracked_return in He.
Qed.

Lemma group_inv_go (t : Task) (sc : option Ctx) (w : World) :
  group_inv w -> group_inv (go_world t sc w).
Proof.
  intros (HK & HJ1 & HJ2 & HO). unfold group_inv, go_world.
  cbn [trace g_err g_once g_wg emit set_group].
  repeat split; try assumption.
  - intros t'. rewrite !count_snoc, count_occ_app. cbn [is_go is_ret count_occ].
    rewrite HK.
    destruct (Task_eq_dec t' t), (Task_eq_dec t t'); try congruence; lia.
  - intros e He. apply in_or_app. left. now apply HJ1.
  - intros e He. apply in_app_or in He.
    destruct He as [He | [He | []]]; [exact (HJ2 _ He) | discriminate].
Qed.

Lemma group_inv_fields (w w' : World) :
  trace w' = trace w -> g_once w' = g_once w -> g_err w' = g_err w ->
  g_wg w' = g_wg w -> group_inv w -> group_inv w'.
Proof.
  intros H1 H2 H3 H4. unfold group_inv. now rewrite H1, H2, H3, H4.
Qed.

Lemma go_shape (E : Env) (a : app) (done : list Task) (t : Task) (w : World) :
  running_shape E a done w ->
  running_shape E a (done ++ [t]) (go_world t (Some CtxGroup) w).
Proof.
  intros H.
  apply (@running_shape_extend E a done (done ++ [t]) w _
           [EvGo t (Some CtxGroup)] H); auto.
  - repeat constructor.
  - intros t' Ht'. apply in_app_or in Ht'.
    destruct Ht' as [Ht' | [<- | []]]; [now left | right; now left].
  - apply group_inv_go. exact (running_shape_group H).
Qed.

Lemma triple_Go (P P' : Assertion) X (t : Task) (sc : option Ctx) :
  (forall w, P w -> P' (go_world t sc w)) ->
  stable any_action P' ->
  triple P (Go t sc) (fun _ => P') X.
Proof.
  intros H HP w Hw. rewrite Go_eq. cbn.
  apply (@overtaken_stable any_action P' HP); [apply any_plays | now apply H].
Qed.

Lemma finish_shape (E : Env) (a : app) (w : World) :
  running_shape E a (tasks_of (chains_of E a)) w ->
  launched_shape E a [] (finish (set_app_ctx a CtxGroup) w) /\
  deferred (snd (finish (set_app_ctx a CtxGroup) w)) = closing a.
Proof.
  intros H. rewrite finish_eq.
  pose proof (@wg_Wait_stable any_action _ (running_shape_stable E a _)
                (sched w) w (any_plays _) H) as Hw.
  destruct (wg_Wait (sched w) w) as [[[] | c | m |] w']; cbn in Hw;
    try (destruct Hw; discriminate).
  - destruct Hw as [(sig & conc & Htr & Hsig & Hconc & Hdone & Hout & Hdef
                     & Hready & Hg) Hwg].
    destruct (g_err w') as [e |] eqn:He; cbn.
    + split; [| exact Hdef].
      exists sig, conc,
        [EvWait (Some e); EvLog FatalLevel "Application error: %v" [e]].
      split; [rewrite Htr; rewrite <- !app_assoc; reflexivity |].
      repeat (split; [assumption |]).
      split.
      { apply (@group_inv_fields
                 (emits [EvWait (Some e);
                         EvLog FatalLevel "Application error: %v" [e]] w'));
          cbn; try reflexivity; [rewrite <- app_assoc; reflexivity |].
        apply group_inv_emits; [repeat constructor | exact Hg]. }
      cbn. split; [reflexivity |]. exists e. repeat split; assumption.
    + split; [| exact Hdef].
      exists sig, conc, [EvWait None].
      split; [rewrite Htr; rewrite <- !app_assoc; reflexivity |].
      repeat (split; [assumption |]).
      split.
      { apply (@group_inv_fields (emits [EvWait None] w'));
          cbn; try reflexivity.
        apply group_inv_emits; [repeat constructor | exact Hg]. }
      cbn. repeat split; assumption.
  - destruct Hw as [_ (sig & conc & Htr & Hsig & Hconc & Hdone & Hout & Hdef
                       & Hready & Hg)].
    cbn. split; [| exact Hdef].
    exists sig, conc, []. rewrite app_nil_r.
    repeat (split; [assumption |]). reflexivity.
Qed.

Lemma launch_shape (E : Env) (a : app) (w : World) :
  running_shape E a [] w ->
  launched_shape E a [] (launch (set_app_ctx a CtxGroup) (chains_of E a) w) /\
  deferred (snd (launch (set_app_ctx a CtxGroup) (chains_of E a) w)) =
  closing a.
Proof.
  intros H.
  set (R := fun r : Outcome app * World =>
              launched_shape E a [] r /\ deferred (snd r) = closing a).
  apply (post_pair R).
  revert w H. change (triple (running_shape E a [])
                             (launch (set_app_ctx a CtxGroup) (chains_of E a))
                             (fun a' w => R (Returned a', w))
                             (fun st w => R (stopped st, w))).
  unfold launch.
  eapply triple_bind with
    (R := fun _ => running_shape E a (map ChainTask (chains_of E a))).
  { apply (@triple_for_range Chain
             (fun done _ => running_shape E a (map ChainTask done))
             _ _
             (fun done x todo =>
                @triple_Go _ _ _ (ChainTask x) (Some CtxGroup)
                  (fun w Hw => eq_ind_r (fun l => running_shape E a l _)
                                        (go_shape (ChainTask x) Hw)
                                        (map_app ChainTask done [x]))
                  (running_shape_stable E a _))
             (chains_of E a) []). }
  intros [].
  eapply triple_bind with
    (R := fun _ => running_shape E a (map ChainTask (chains_of E a))).
  { unfold NewServer, log. apply triple_act. intros w Hw.
    apply (@running_shape_extend E a _ _ w _ [EvNewServer] Hw); auto.
    - repeat constructor.
    - apply (group_inv_emits (es := [EvNewServer]));
        [repeat constructor | exact (running_shape_group Hw)]. }
  intros [].
  eapply triple_bind with
    (R := fun _ => running_shape E a (tasks_of (chains_of E a))).
  { apply triple_Go; [| apply running_shape_stable].
    intros w Hw. now apply go_shape. }
  intros [] w Hw. apply post_pair. now apply finish_shape.
Qed.

Lemma startup_kind_untracked (es : list Event) :
  Forall startup_kind es -> Forall untracked es.
Proof.
  apply Forall_impl. intros e. destruct e; cbn; auto.
Qed.

Lemma signals_untracked (sig : list Event) :
  Forall (eq EvSignal) sig -> Forall untracked sig.
Proof. apply Forall_impl. intros e <-. exact I. Qed.

Lemma started_shape (E : Env) (a : app) (w : World) :
  store_ready E a = true -> quiet w ->
  running_shape E a [] (started_world E a w).
Proof.
  intros Hready (Hsig & Hwg & Hdef).
  exists (trace w), []. cbn.
  split; [now rewrite app_nil_r |].
  split; [assumption |].
  split; [constructor |].
  split; [intros t [] |].
  split; [reflexivity |].
  split; [rewrite Hdef; apply app_nil_r |].
  split; [assumption |].
  assert (Hun : Forall untracked (trace w ++ startup_events E a)).
  { apply Forall_app. split; [now apply signals_untracked |].
    apply startup_kind_untracked, startup_events_kind. }
  unfold group_inv. cbn [trace g_err g_once g_wg started_world].
  repeat split; try discriminate.
  - intros t. destruct (untracked_count t Hun) as [-> ->]. reflexivity.
  - intros e He. now apply untracked_return in He.
Qed.

(** ** The shape of every run *)

Lemma Run_shape (E : Env) (a : app) (s : list Action) :
  run_shape E a (Run E a (initial s)).
Proof.
  rewrite Run_phases, func_unwound. unfold bind.
  destruct (prelude_quiet s) as [w1 [-> Hq]].
  unfold run_shape. destruct (store_ready E a) eqn:Hready.
  - rewrite (@startup_ready E a _ Hready).
    destruct (@launch_shape E a _ (@started_shape E a w1 Hready Hq)) as [Hl Hd].
    destruct (launch (set_app_ctx a CtxGroup) (chains_of E a)
                     (started_world E a w1)) as [[a' | c | m |] w2];
      cbn in Hd; try exact Hl.
    + destruct Hl as (sig & body & tail & Htr & Hsig & Hbody & Hdone & Hout
                      & Hg & Ha' & Htail & Herr & Hwg & Hdone').
      rewrite unwound_emits, Hd.
      exists sig, body, (EvWait None :: map (fun _ => EvClose) (closing a)).
      cbn. split; [rewrite Htr, Htail; rewrite <- !app_assoc; reflexivity |].
      repeat (split; [assumption |]).
      split; [| now repeat split].
      apply (@group_inv_fields (emits (map (fun _ => EvClose) (closing a)) w2));
        try reflexivity.
      apply group_inv_emits; [| exact Hg].
      apply Forall_forall. intros e He. apply in_map_iff in He.
      destruct He as [d [<- _]]. exact I.
    + destruct Hl as (sig & body & tail & _ & _ & _ & _ & _ & _ & []).
  - destruct (@startup_fails E a w1 Hready) as [w' [-> Htr]]. cbn.
    destruct Hq as (Hsig & _ & _).
    exists (trace w1). now repeat split.
Qed.

(** ** Runs in which every task returns *)

Lemma only_returns_app (r0 : option error) (tr es : list Event) :
  only_returns r0 tr -> Forall untracked es -> only_returns r0 (tr ++ es).
Proof.
  intros H Hes r Hin. apply in_app_or in Hin.
  destruct Hin as [Hin | Hin]; [now apply H |].
  now apply untracked_return in Hin.
Qed.

Lemma go_bound (r0 : option error) (done : list Task) (t : Task)
  (sc : option Ctx) (w : World) :
  group_bound r0 done w -> group_bound r0 (done ++ [t]) (go_world t sc w).
Proof.
  intros [Hr Hb]. split; cbn.
  - intros r Hin. apply in_app_or in Hin.
    destruct Hin as [Hin | [Hin | []]]; [now apply Hr | discriminate].
  - intros t'. rewrite !count_occ_app. specialize (Hb t'). lia.
Qed.

Lemma triple_Go_budget (ok : Action -> Prop) (P P' : Assertion) X (t : Task)
  (sc : option Ctx) (s2 : list Action) (m : nat) :
  (forall w, P w -> P' (go_world t sc w)) ->
  stable ok P' ->
  triple (fun w => P w /\ plays ok w /\ budget s2 (S m) w) (Go t sc)
         (fun _ w => P' w /\ plays ok w /\ budget s2 m w) X.
Proof.
  intros H HP w (Hw & Hplay & r1 & Hs & Hm). rewrite Go_eq. cbn.
  destruct (@overtaken_stable ok P' HP (sched w) (go_world t sc w) Hplay
              (H w Hw)) as [H1 H2].
  repeat split; try assumption.
  rewrite Hs. now apply overtaken_budget.
Qed.

Lemma finish_returns (r0 : option error) (chains : list Chain)
  (s2 : list Action) (a : app) (w : World) :
  (forall t, count_occ Task_eq_dec (tasks_of chains) t <= count (ends t) s2) ->
  group_bound r0 (tasks_of chains) w ->
  plays (server_returns r0) w ->
  budget s2 0 w ->
  fst (finish a w) <> Blocked /\
  only_returns r0 (trace (snd (finish a w))).
Proof.
  intros Hends Hb Hplay (r1 & Hs & _). rewrite finish_eq.
  assert (Hc : forall t, count_occ Task_eq_dec (g_wg w) t
                         <= count (ends t) (sched w)).
  { intros t. rewrite Hs, count_app.
    destruct Hb as [_ Hb]. specialize (Hb t). specialize (Hends t). lia. }
  pose proof (@wg_Wait_total _ _ (group_bound_stable r0 (tasks_of chains))
                (sched w) w Hplay Hb Hc) as Hw.
  destruct (wg_Wait (sched w) w) as [[[] | c | m |] w']; cbn in Hw;
    try contradiction.
  destruct Hw as [[Hr _] _].
  destruct (g_err w') as [e |]; cbn; (split; [discriminate |]).
  - rewrite <- app_assoc. apply only_returns_app; [assumption |].
    repeat constructor.
  - apply only_returns_app; [assumption | repeat constructor].
Qed.

Lemma launch_returns (r0 : option error) (chains : list Chain)
  (s2 : list Action) (a : app) :
  (forall t, count_occ Task_eq_dec (tasks_of chains) t <= count (ends t) s2) ->
  triple (fun w => group_bound r0 [] w /\ plays (server_returns r0) w /\
                   budget s2 (List.length chains + 1) w)
         (launch a chains)
         (fun _ w => only_returns r0 (trace w))
         (fun st w => st <> StopBlocked /\ only_returns r0 (trace w)).
Proof.
  intros Hends. unfold launch.
  eapply triple_bind with
    (R := fun _ w => group_bound r0 (map ChainTask chains) w /\
                     plays (server_returns r0) w /\ budget s2 1 w).
  { apply (@triple_for_range Chain
             (fun done todo w =>
                group_bound r0 (map ChainTask done) w /\
                plays (server_returns r0) w /\
                budget s2 (List.length todo + 1) w)
             _ _
             (fun done x todo =>
                @triple_Go_budget _ _ _ _ (ChainTask x) (Some CtxGroup) s2 _
                  (fun w Hw => eq_ind_r (fun l => group_bound r0 l _)
                                        (go_bound (ChainTask x) _ Hw)
                                        (map_app ChainTask done [x]))
                  (group_bound_stable r0 _))
             chains []). }
  intros [].
  eapply triple_bind with
    (R := fun _ w => group_bound r0 (map ChainTask chains) w /\
                     plays (server_returns r0) w /\ budget s2 1 w).
  { unfold NewServer, log. apply triple_act. intros w ([Hr Hb] & Hplay & Hbud).
    repeat split; try assumption.
    cbn. apply only_returns_app; [assumption | repeat constructor]. }
  intros [].
  eapply triple_bind with
    (R := fun _ w => group_bound r0 (tasks_of chains) w /\
                     plays (server_returns r0) w /\ budget s2 0 w).
  { apply triple_Go_budget; [| apply group_bound_stable].
    intros w Hw. now apply go_bound. }
  intros [] w (Hb & Hplay & Hbud).
  destruct (@finish_returns r0 chains s2 a w Hends Hb Hplay Hbud) as [H1 H2].
  destruct (finish a w) as [[a' | c | m |] w']; cbn in *;
    try (split; [discriminate | assumption]); try assumption.
  congruence.
Qed.

Lemma Run_returns (E : Env) (a : app) (s1 s2 : list Action)
  (r0 : option error) :
  Forall (server_returns r0) (s1 ++ s2) ->
  all_return (chains_of E a) s1 s2 ->
  fst (Run E a (initial (s1 ++ s2))) <> Blocked /\
  only_returns r0 (trace (snd (Run E a (initial (s1 ++ s2))))).
Proof.
  intros Hplay [Hres Hends].
  rewrite Run_phases, func_unwound. unfold bind. rewrite prelude_initial.
  set (w0 := mkWorld [] (s1 ++ s2) true false false [] false None [] []).
  assert (H0 : group_bound r0 [] w0) by (split; [intros r [] | cbn; auto]).
  destruct (@overtaken_stable _ _ (group_bound_stable r0 []) (s1 ++ s2) w0
              Hplay H0) as [[Hr1 Hb1] Hp1].
  assert (Hbud : budget s2 (List.length (chains_of E a) + 1)
                        (overtaken (s1 ++ s2) w0))
    by (apply overtaken_budget; lia).
  set (w1 := overtaken (s1 ++ s2) w0) in *. clearbody w1.
  assert (Hr2 : only_returns r0 (trace w1 ++ startup_events E a)).
  { apply only_returns_app; [assumption |].
    apply startup_kind_untracked, startup_events_kind. }
  destruct (store_ready E a) eqn:Hready.
  - rewrite (@startup_ready E a _ Hready).
    assert (Hpre : group_bound r0 [] (started_world E a w1) /\
                   plays (server_returns r0) (started_world E a w1) /\
                   budget s2 (List.length (chains_of E a) + 1)
                          (started_world E a w1)).
    { split; [split; [exact Hr2 | cbn; auto] |]. split; assumption. }
    pose proof (@launch_returns r0 (chains_of E a) s2 (set_app_ctx a CtxGroup)
                  Hends _ Hpre) as Hl.
    destruct (launch (set_app_ctx a CtxGroup) (chains_of E a)
                     (started_world E a w1)) as [[a' | c | m |] w2];
      cbn in Hl; cbn [fst snd].
    + split; [discriminate |]. rewrite unwound_emits. cbn.
      apply only_returns_app; [assumption |].
      apply Forall_forall. intros e He. apply in_map_iff in He.
      destruct He as [d [<- _]]. exact I.
    + split; [discriminate | apply Hl].
    + split; [discriminate |]. rewrite unwound_emits. cbn.
      apply only_returns_app; [apply Hl |].
      apply Forall_forall. intros e He. apply in_map_iff in He.
      destruct He as [d [<- _]]. exact I.
    + destruct Hl as [Hl _]. congruence.
  - destruct (@startup_fails E a w1 Hready) as [w' [-> Htr]]. cbn.
    split; [discriminate | now rewrite Htr].
Qed.

(** ** Consequences of the shape *)

Lemma prefix_before (l1 l2 pre post : list Event) (ev : Event) :
  l1 ++ l2 = pre ++ ev :: post -> ~ In ev l1 -> exists pre', pre = l1 ++ pre'.
Proof.
  revert pre. induction l1 as [| x l1 IH]; intros pre Heq Hout.
  - now exists pre.
  - destruct pre as [| y pre]; cbn in Heq; injection Heq as Hx Hrest.
    + exfalso. apply Hout. left. exact Hx.
    + subst y. destruct (IH pre Hrest) as [pre' Hpre].
      * intros Hin. apply Hout. now right.
      * exists pre'. now rewrite Hpre.
Qed.

Lemma startup_events_run (E : Env) (a : app) :
  Forall (run_event a) (startup_events E a).
Proof.
  unfold startup_events, console_events, store_events.
  destruct (console_wanted (config a)) eqn:Hc;
    destruct (Postgres (Outputs (config a))) as [pg |] eqn:Hp; cbn;
    try destruct (Connect E (URL pg)); cbn;
    try destruct (MigrateSchema E _); cbn;
    repeat (constructor; cbn; try rewrite Hc; try rewrite Hp;
            try discriminate; try reflexivity; try exact I).
Qed.

Lemma concurrent_run (a : app) (body : list Event) :
  Forall (concurrent_ok a) body -> Forall (run_event a) body.
Proof.
  apply Forall_impl. intros e. destruct e; cbn; auto; try contradiction.
Qed.

Lemma closing_events (a : app) :
  Forall (run_event a) (map (fun _ => EvClose) (closing a)).
Proof.
  unfold closing. destruct (Postgres (Outputs (config a))) eqn:Hp; cbn.
  - constructor; [| constructor]. cbn. rewrite Hp. discriminate.
  - constructor.
Qed.

Lemma ended_tail (a : app) (o : Outcome app) (w : World) (tail : list Event) :
  ended a (map (fun _ => EvClose) (closing a)) o w tail ->
  Forall (run_event a) tail /\ Forall untracked tail.
Proof.
  destruct o as [a' | c | m |]; cbn.
  - intros (_ & -> & _). split.
    + constructor; [exact I | apply closing_events].
    + constructor; [exact I |]. apply Forall_forall. intros e He.
      apply in_map_iff in He. destruct He as [d [<- _]]. exact I.
  - intros (_ & e & -> & _). split; repeat constructor.
  - contradiction.
  - intros ->. split; constructor.
Qed.

Lemma signals_run (a : app) (sig : list Event) :
  Forall (eq EvSignal) sig -> Forall (run_event a) sig.
Proof. apply Forall_impl. intros e <-. exact I. Qed.

(** Every event of a run is one that the configuration allows. *)
Lemma Run_events (E : Env) (a : app) (s : list Action) :
  Forall (run_event a) (trace (snd (Run E a (initial s)))).
Proof.
  pose proof (Run_shape E a s) as H. unfold run_shape in H.
  destruct (Run E a (initial s)) as [o w]. cbn [snd].
  destruct (store_ready E a).
  - destruct H as (sig & body & tail & -> & Hsig & Hbody & _ & _ & _ & Hend).
    apply Forall_app; split; [now apply signals_run |].
    apply Forall_app; split; [apply startup_events_run |].
    apply Forall_app; split; [now apply concurrent_run |].
    exact (proj1 (@ended_tail a o w tail Hend)).
  - destruct H as (sig & Htr & Hsig & _). cbn in Htr. rewrite Htr.
    apply Forall_app. split; [now apply signals_run | apply startup_events_run].
Qed.

(** The start-up events are in every trace. *)
Lemma startup_in_trace (E : Env) (a : app) (s : list Action) (e : Event) :
  In e (startup_events E a) -> In e (trace (snd (Run E a (initial s)))).
Proof.
  intros He. pose proof (Run_shape E a s) as H. unfold run_shape in H.
  destruct (Run E a (initial s)) as [o w]. cbn [snd].
  destruct (store_ready E a).
  - destruct H as (sig & body & tail & -> & _).
    apply in_or_app. right. apply in_or_app. now left.
  - destruct H as (sig & Htr & _). cbn in Htr. rewrite Htr.
    apply in_or_app. now right.
Qed.

(** When the wait group is empty, every task that was started has
    returned, and did so before the tail of the trace. *)
Lemma all_returned (w : World) (pre tail : list Event) (t : Task) :
  group_inv w -> g_wg w = [] -> trace w = pre ++ tail ->
  Forall untracked tail ->
  In (EvGo t (Some CtxGroup)) pre ->
  exists r, In (EvTaskReturn t r) pre.
Proof.
  intros (HK & _) Hwg Htr Htail Hgo.
  specialize (HK t). rewrite Hwg, Htr, !count_app in HK. cbn in HK.
  destruct (untracked_count t Htail) as [H1 H2]. rewrite H1, H2 in HK.
  assert (Hpos : 0 < count (is_go t) pre).
  { apply (@count_In _ (is_go t) pre _ Hgo). cbn. now destruct (Task_eq_dec t t). }
  assert (Hret : 0 < count (is_ret t) pre) by lia.
  apply count_some in Hret. destruct Hret as [ev [Hin Hev]].
  destruct ev; cbn in Hev; try discriminate.
  destruct (Task_eq_dec t t0); [subst | discriminate].
  now exists r.
Qed.

(** ** The start-up events, case by case *)

Lemma console_wanted_spec (c : Config) :
  console_wanted c = true <->
  (Console (Outputs c) = None \/
   exists cc, Console (Outputs c) = Some cc /\ Disabled cc = false).
Proof.
  unfold console_wanted. destruct (Console (Outputs c)) as [cc |].
  - rewrite negb_true_iff. split.
    + intros H. right. now exists cc.
    + intros [H | [cc' [H1 H2]]]; [discriminate | congruence].
  - split; auto.
Qed.

Lemma console_in_startup (E : Env) (a : app) :
  console_wanted (config a) = true ->
  In (EvAdd LoggerOutput) (startup_events E a).
Proof.
  intros H. unfold startup_events, console_events. rewrite H. cbn. auto.
Qed.

Lemma database_in_startup (E : Env) (a : app) :
  Postgres (Outputs (config a)) <> None ->
  In EvNewDatabase (startup_events E a).
Proof.
  intros H. unfold startup_events, store_events.
  destruct (Postgres (Outputs (config a))) as [pg |]; [| contradiction].
  apply in_or_app. right. apply in_or_app. right. cbn. auto.
Qed.

Lemma registered_database (a : app) :
  In Database (registered a) -> Postgres (Outputs (config a)) <> None.
Proof.
  unfold registered. intros H Hp. rewrite Hp, app_nil_r in H.
  destruct (console_wanted (config a)); cbn in H;
    [destruct H as [H | []]; discriminate | contradiction].
Qed.

Lemma not_of_kind (K : Event -> Prop) (l : list Event) (e : Event) :
  Forall K l -> ~ K e -> ~ In e l.
Proof.
  intros H Hk Hin. eapply Forall_forall in H; [| exact Hin]. now apply Hk.
Qed.

(** The start-up events of a store that connects and migrates. *)
Lemma store_startup (E : Env) (a : app) (pg : PostgresConfig) :
  Postgres (Outputs (config a)) = Some pg ->
  store_ready E a = true ->
  exists early,
    startup_events E a = early ++ [EvAdd Database] /\
    store_prepared E a pg early /\
    ~ In (EvAdd Database) early.
Proof.
  unfold store_ready, startup_events, store_events, console_events,
    store_prepared.
  intros Hp. rewrite Hp.
  destruct (Connect E (URL pg)) as [e |]; [discriminate |].
  destruct (MigrateSchema E (chains_of E a)) as [e |]; [discriminate |].
  intros _.
  exists ([EvSetCtx CtxGroup; EvNewOutputs] ++
          (if console_wanted (config a)
           then [EvNewLoggerOutput; EvAdd LoggerOutput] else []) ++
          [EvNewLogHandler; EvNewChains (chains_of E a); EvNewDatabase;
           EvConnect (URL pg) None;
           EvMigrateSchema (chains_of E a) None]).
  destruct (console_wanted (config a)); cbn.
  - split; [reflexivity |]. split; [intuition |].
    intros H. repeat (destruct H as [H | H]; [discriminate |]). exact H.
  - split; [reflexivity |]. split; [intuition |].
    intros H. repeat (destruct H as [H | H]; [discriminate |]). exact H.
Qed.

Lemma failed_startup (E : Env) (a : app) :
  store_ready E a = false ->
  ~ In (EvAdd Database) (startup_events E a) /\
  exists pg, Postgres (Outputs (config a)) = Some pg.
Proof.
  unfold store_ready, startup_events, store_events, console_events.
  destruct (Postgres (Outputs (config a))) as [pg |]; [| discriminate].
  intros H. split; [| now exists pg].
  destruct (console_wanted (config a));
    destruct (Connect E (URL pg)) as [e |]; cbn;
    try destruct (MigrateSchema E (chains_of E a)) as [e' |]; cbn;
    try discriminate;
    intros Hin; repeat (destruct Hin as [Hin | Hin]; [discriminate |]);
    exact Hin.
Qed.

Lemma ready_startup_quiet (E : Env) (a : app) :
  store_ready E a = true -> absent is_fatal (startup_events E a).
Proof.
  unfold store_ready, startup_events, store_events, console_events.
  destruct (console_wanted (config a));
    destruct (Postgres (Outputs (config a))) as [pg |]; cbn;
    try destruct (Connect E (URL pg)) as [e |]; cbn;
    try destruct (MigrateSchema E (chains_of E a)) as [e' |]; cbn;
    try discriminate;
    intros _ ev Hin; repeat (destruct Hin as [<- | Hin]; [now cbn |]);
    contradiction.
Qed.

Lemma connect_failure_startup (E : Env) (a : app) (pg : PostgresConfig)
  (err : error) :
  Postgres (Outputs (config a)) = Some pg ->
  Connect E (URL pg) = Some err ->
  store_ready E a = false /\
  startup_events E a =
  [EvSetCtx CtxGroup; EvNewOutputs] ++ console_events (config a) ++
  [EvNewLogHandler; EvNewChains (chains_of E a); EvNewDatabase;
   EvConnect (URL pg) (Some err);
   EvLog FatalLevel "Failed to connect Postgres" ["url"; URL pg]].
Proof.
  intros Hp Hc. unfold store_ready, startup_events, store_events.
  now rewrite Hp, Hc.
Qed.

(** ** Guarded events *)

Lemma guarded_by_prefix (P : Event -> Prop) (G : list Event -> Prop)
  (l1 l2 : list Event) :
  (forall ev, P ev -> ~ In ev l1) ->
  (forall pre', G (l1 ++ pre')) ->
  guarded P G (l1 ++ l2).
Proof.
  intros Hout HG pre ev post Heq Hev.
  destruct (@prefix_before l1 l2 pre post ev Heq (Hout ev Hev)) as [pre' ->].
  apply HG.
Qed.

Lemma guarded_absent (P : Event -> Prop) (G : list Event -> Prop)
  (l : list Event) :
  absent P l -> guarded P G l.
Proof.
  intros H pre ev post Heq Hev. exfalso. apply (H ev); [| exact Hev].
  rewrite Heq. apply in_or_app. right. now left.
Qed.

Lemma signal_only (sig : list Event) (ev : Event) :
  Forall (eq EvSignal) sig -> In ev sig -> ev = EvSignal.
Proof.
  intros H Hin. eapply Forall_forall in H; [| exact Hin]. now symmetry.
Qed.

Lemma startup_only (E : Env) (a : app) (ev : Event) :
  In ev (startup_events E a) -> startup_kind ev.
Proof.
  intros Hin. pose proof (startup_events_kind E a) as H.
  eapply Forall_forall in H; [exact H | exact Hin].
Qed.

Lemma concurrent_only (a : app) (body : list Event) (ev : Event) :
  Forall (concurrent_ok a) body -> In ev body -> concurrent_ok a ev.
Proof.
  intros H Hin. eapply Forall_forall in H; [exact H | exact Hin].
Qed.

(** Before the tail of a trace no deferred call has run, nothing fatal was
    logged, and [Wait] has not returned. *)
Lemma before_tail (E : Env) (a : app) (sig body : list Event) (ev : Event) :
  store_ready E a = true ->
  Forall (eq EvSignal) sig -> Forall (concurrent_ok a) body ->
  In ev (sig ++ startup_events E a ++ body) ->
  ev <> EvClose /\ ~ is_fatal ev /\ forall r, ev <> EvWait r.
Proof.
  intros Hr Hsig Hbody Hin.
  apply in_app_or in Hin. destruct Hin as [Hin | Hin].
  - rewrite (@signal_only sig ev Hsig Hin).
    repeat split; try discriminate. auto.
  - apply in_app_or in Hin. destruct Hin as [Hin | Hin].
    + pose proof (@ready_startup_quiet E a Hr ev Hin) as Hq.
      apply startup_only in Hin.
      split; [| split; [exact Hq |]]; [intros -> | intros r ->]; exact Hin.
    + pose proof (@concurrent_only a body ev Hbody Hin) as Hc.
      split; [| split]; [intros -> | | intros r ->]; try exact Hc.
      destruct ev; try contradiction; auto.
Qed.

(** ** Runs that complete *)

(** With a ready store and a schedule in which every task returns and the
    server returns [r0]: [Wait] returns [r0] after every task has returned,
    and [Run] returns or exits accordingly. *)
Lemma Run_completes (E : Env) (a : app) (s1 s2 : list Action)
  (r0 : option error) :
  store_ready E a = true ->
  all_return (chains_of E a) s1 s2 ->
  Forall (server_returns r0) (s1 ++ s2) ->
  exists pre tail,
    trace (snd (Run E a (initial (s1 ++ s2)))) = pre ++ tail /\
    (forall ev, In ev pre ->
                ev <> EvClose /\ ~ is_fatal ev /\ forall r, ev <> EvWait r) /\
    In (EvTaskReturn ServerTask r0) pre /\
    (forall c, In c (chains_of E a) ->
               In (EvTaskReturn (ChainTask c) None) pre) /\
    g_err (snd (Run E a (initial (s1 ++ s2)))) = r0 /\
    g_wg (snd (Run E a (initial (s1 ++ s2)))) = [] /\
    gctx_done (snd (Run E a (initial (s1 ++ s2)))) = true /\
    match r0 with
    | None =>
        fst (Run E a (initial (s1 ++ s2))) = Returned (set_app_ctx a CtxGroup)
        /\ tail = EvWait None :: map (fun _ => EvClose) (closing a)
    | Some e =>
        fst (Run E a (initial (s1 ++ s2))) = Exited 1 /\
        tail = [EvWait (Some e);
                EvLog FatalLevel "Application error: %v" [e]]
    end.
Proof.
  intros Hr Hall Hplay.
  destruct (@Run_returns E a s1 s2 r0 Hplay Hall) as [Hnb Honly].
  pose proof (Run_events E a (s1 ++ s2)) as Hev.
  pose proof (Run_shape E a (s1 ++ s2)) as H. unfold run_shape in H.
  rewrite Hr in H.
  destruct (Run E a (initial (s1 ++ s2))) as [o w]. cbn [fst snd] in *.
  destruct H as (sig & body & tail & Htr & Hsig & Hbody & Hgo & _ & Hg & Hend).
  assert (Htr' : trace w = (sig ++ startup_events E a ++ body) ++ tail)
    by (rewrite Htr; now rewrite <- !app_assoc).
  destruct (@ended_tail a o w tail Hend) as [_ Htail].
  assert (Hwg : g_wg w = [] /\ gctx_done w = true).
  { destruct o as [a' | c | m |]; cbn in Hend.
    - now destruct Hend as (_ & _ & _ & ? & ?).
    - now destruct Hend as (_ & e & _ & _ & ? & ?).
    - contradiction.
    - congruence. }
  destruct Hwg as [Hwg Hdone].
  assert (Hret : forall t, In t (tasks_of (chains_of E a)) ->
                 exists r, In (EvTaskReturn t r)
                              (sig ++ startup_events E a ++ body)).
  { intros t Ht.
    apply (@all_returned w _ tail t Hg Hwg Htr' Htail).
    apply in_or_app. right. apply in_or_app. right. now apply Hgo. }
  assert (Hpre_in : forall ev, In ev (sig ++ startup_events E a ++ body) ->
                               In ev (trace w))
    by (intros ev Hin; rewrite Htr'; apply in_or_app; now left).
  assert (Hserver : In (EvTaskReturn ServerTask r0)
                       (sig ++ startup_events E a ++ body)).
  { destruct (Hret ServerTask) as [r Hin].
    - unfold tasks_of. apply in_or_app. right. now left.
    - now rewrite <- (Honly r (Hpre_in _ Hin)). }
  exists (sig ++ startup_events E a ++ body), tail.
  split; [exact Htr' |].
  split; [intros ev Hin;
          now apply (@before_tail E a sig body ev Hr Hsig Hbody) |].
  split; [exact Hserver |].
  split.
  { intros c Hc. destruct (Hret (ChainTask c)) as [r Hin].
    - unfold tasks_of. apply in_or_app. left. now apply in_map.
    - pose proof (Hpre_in _ Hin) as Hin'.
      rewrite Forall_forall in Hev. specialize (Hev _ Hin'). cbn in Hev.
      now subst r. }
  destruct Hg as (_ & HJ1 & HJ2 & _).
  destruct o as [a' | c | m |]; cbn in Hend.
  - destruct Hend as (-> & -> & Herr & _).
    destruct r0 as [e |].
    + exfalso. apply (HJ2 e (Hpre_in _ Hserver)). exact Herr.
    + now repeat split.
  - destruct Hend as (-> & e & -> & Herr & _).
    pose proof (Honly _ (HJ1 e Herr)) as <-.
    now repeat split.
  - contradiction.
  - congruence.
Qed.

(** * The claims *)

(** ** Chain tasks *)

(** C1. The function handed to the task group for a chain returns nil
    whatever its loop ended with; when it returns, the group's error, its
    once-flag and both contexts are as before; and in every run of [Run]
    no chain task is ever seen returning an error. *)
Theorem chain_failure_contained :
  (forall loop, chain_func loop = None) /\
  (forall c loop w,
      let w' := step (ChainLoopEnds c loop) w in
      g_err w' = g_err w /\ g_once w' = g_once w /\
      gctx_done w' = gctx_done w /\ ctx_done w' = ctx_done w) /\
  (forall E a s,
      absent is_chain_failure (trace (snd (Run E a (initial s))))).
Proof.
  split; [reflexivity |]. split.
  - intros c loop w. cbn [step].
    destruct (running (ChainTask c) w); cbn; auto.
  - intros E a s e He Hfail.
    pose proof (Run_events E a s) as H.
    eapply Forall_forall in H; [| exact He].
    destruct e as [| | | | | | | | | | | | | | | t r | |]; try contradiction.
    destruct t as [c |]; [| contradiction].
    destruct r as [x |]; [| contradiction]. cbn in H. discriminate.
Qed.

(** ** The accessor of the context *)

(** C8. An app returned by [NewApp] has a nil context; an app returned by
    [Run] carries the group's context. *)
Theorem context_nil_before_run (E : Env) (p : string) (w w' : World)
  (a : app) :
  NewApp E p w = (Returned a, w') ->
  Context a = None /\
  (forall s a', fst (Run E a (initial s)) = Returned a' ->
                Context a' = Some CtxGroup).
Proof.
  intros H. split.
  - revert H. unfold NewApp, Sugar, Debugf, Debug, Fatalf, log, os_Exit, act,
      panic, ret, bind.
    destruct (zap_NewProduction E) as [[z |] e]; cbn; [| discriminate].
    destruct (LoadConfigJSON E p) as [c | err]; cbn; [| discriminate].
    destruct (LoadContracts E c (path_Dir E p)) as [cs | err]; cbn;
      [| discriminate].
    intros H. injection H as <- _. reflexivity.
  - intros s a' Hret. pose proof (Run_shape E a s) as Hs.
    unfold run_shape in Hs.
    destruct (Run E a (initial s)) as [o w2]. cbn in Hret. subst o.
    destruct (store_ready E a).
    + destruct Hs as (sig & body & tail & _ & _ & _ & _ & _ & _ & Hend).
      cbn in Hend. destruct Hend as [-> _]. reflexivity.
    + destruct Hs as (sig & _ & _ & Hx). discriminate.
Qed.

Lemma context_nil_before_run_witness :
  Context (app0 (cfg None None)) = None /\
  (forall s a', fst (Run (env0 [] None None) (app0 (cfg None None))
                         (initial s)) = Returned a' ->
                Context a' = Some CtxGroup).
Proof.
  apply (@context_nil_before_run (env0 [] None None) "config.json"
           (initial [])
           (emit (EvLog DebugLevel "Configuring contracts..." [])
              (emit (EvLog DebugLevel "Loading config from %s..."
                           ["config.json"]) (initial [])))).
  reflexivity.
Defined.

(** ** The logger *)

(** C9. [NewApp] never looks at the error of the logger constructor, and
    when the constructor hands back a nil logger [NewApp] panics at once:
    nothing is logged and the process is not exited. *)
Theorem nil_logger_panics (E : Env) (p : string) (w : World)
  (err : option error) :
  zap_NewProduction E = (None, err) ->
  (exists msg, NewApp E p w = (Panicked msg, w)) /\
  (forall z e1 e2,
      NewApp (with_zap E (z, e1)) p w = NewApp (with_zap E (z, e2)) p w).
Proof.
  intros H. split.
  - unfold NewApp. rewrite H. cbn. eexists. reflexivity.
  - intros z e1 e2. reflexivity.
Qed.

Lemma nil_logger_panics_witness :
  (exists msg,
      NewApp (with_zap (env0 [] None None) (None, Some "sink unavailable"))
             "config.json" (initial []) = (Panicked msg, initial [])) /\
  (forall z e1 e2,
      NewApp (with_zap (with_zap (env0 [] None None)
                                 (None, Some "sink unavailable")) (z, e1))
             "config.json" (initial []) =
      NewApp (with_zap (with_zap (env0 [] None None)
                                 (None, Some "sink unavailable")) (z, e2))
             "config.json" (initial [])).
Proof.
  apply (@nil_logger_panics
           (with_zap (env0 [] None None) (None, Some "sink unavailable"))
           "config.json" (initial []) (Some "sink unavailable")).
  reflexivity.
Defined.

(** ** Which destinations are registered *)

(** C6. In every run the console destination is registered exactly when the
    console section is absent or not disabled, a durable store is
    constructed exactly when the Postgres section is present, and without
    that section no event of the store path (construct, connect, migrate,
    register, deliver, close) occurs. *)
Theorem outputs_follow_configuration (E : Env) (a : app) (s : list Action) :
  let tr := trace (snd (Run E a (initial s))) in
  (In (EvAdd LoggerOutput) tr <->
   (Console (Outputs (config a)) = None \/
    exists cc, Console (Outputs (config a)) = Some cc /\
               Disabled cc = false)) /\
  (In EvNewDatabase tr <-> Postgres (Outputs (config a)) <> None) /\
  (Postgres (Outputs (config a)) = None -> absent is_store tr).
Proof.
  cbn zeta. pose proof (Run_events E a s) as Hev.
  rewrite Forall_forall in Hev.
  split; [| split].
  - rewrite <- console_wanted_spec. split.
    + intros H. exact (Hev _ H).
    + intros H. apply startup_in_trace. now apply console_in_startup.
  - split.
    + intros H. exact (Hev _ H).
    + intros H. apply startup_in_trace. now apply database_in_startup.
  - intros Hp e He Hstore. specialize (Hev e He).
    destruct e as [| | | | | o | | | | | | | | | o c p | | |];
      try contradiction; cbn in Hev; try (now apply Hev).
    + destruct o; [contradiction | now apply Hev].
    + destruct o; [contradiction |].
      exact (@registered_database a Hev Hp).
Qed.

(** ** The durable store is ready before anything runs *)

(** C3. With a Postgres section, in every run: whenever a task is handed
    to the group, [Connect] and [MigrateSchema] have both returned nil
    earlier in the trace; the store is added to the outputs only after both;
    and an event is delivered to the store only after both and after the
    store was added. *)
Theorem store_ready_before_tasks (E : Env) (a : app) (s : list Action)
  (pg : PostgresConfig) :
  Postgres (Outputs (config a)) = Some pg ->
  let tr := trace (snd (Run E a (initial s))) in
  guarded is_start (store_prepared E a pg) tr /\
  guarded (eq (EvAdd Database)) (store_prepared E a pg) tr /\
  guarded (is_deliver_to Database)
          (fun pre => store_prepared E a pg pre /\ In (EvAdd Database) pre)
          tr.
Proof.
  intros Hp. cbn zeta.
  pose proof (Run_shape E a s) as H. unfold run_shape in H.
  destruct (Run E a (initial s)) as [o w]. cbn [snd].
  destruct (store_ready E a) eqn:Hr.
  - destruct (@store_startup E a pg Hp Hr) as (early & Hse & [Hc Hm] & Hnot).
    destruct H as (sig & body & tail & Htr & Hsig & Hbody & _).
    assert (Hprep : forall pre',
               store_prepared E a pg ((sig ++ startup_events E a) ++ pre')).
    { intros pre'. rewrite Hse. split;
        apply in_or_app; left; apply in_or_app; right; apply in_or_app;
        now left. }
    assert (Htr' : trace w = (sig ++ startup_events E a) ++ body ++ tail)
      by (rewrite Htr; now rewrite <- app_assoc).
    split; [| split].
    + rewrite Htr'. apply guarded_by_prefix; [| exact Hprep].
      intros ev Hev Hin. apply in_app_or in Hin. destruct Hin as [Hin | Hin].
      * rewrite (@signal_only sig _ Hsig Hin) in Hev. exact Hev.
      * apply startup_only in Hin. destruct ev; contradiction.
    + assert (Htr2 : trace w = (sig ++ early) ++
                               ([EvAdd Database] ++ body ++ tail)).
      { rewrite Htr, Hse. now rewrite <- !app_assoc. }
      rewrite Htr2. apply guarded_by_prefix.
      * intros ev <- Hin. apply in_app_or in Hin.
        destruct Hin as [Hin | Hin]; [| contradiction].
        pose proof (@signal_only sig _ Hsig Hin). discriminate.
      * intros pre'. split; apply in_or_app; left; apply in_or_app;
          now right.
    + rewrite Htr'. apply guarded_by_prefix.
      * intros ev Hev Hin. apply in_app_or in Hin.
        destruct Hin as [Hin | Hin].
        -- rewrite (@signal_only sig _ Hsig Hin) in Hev. exact Hev.
        -- apply startup_only in Hin. destruct ev; contradiction.
      * intros pre'. split; [apply Hprep |].
        rewrite Hse. apply in_or_app. left. apply in_or_app. right.
        apply in_or_app. right. now left.
  - destruct H as (sig & Htr & Hsig & _). cbn in Htr.
    destruct (@failed_startup E a Hr) as [Hnot _].
    rewrite Htr.
    split; [| split]; apply guarded_absent; intros ev Hin Hev;
      apply in_app_or in Hin; destruct Hin as [Hin | Hin].
    + rewrite (@signal_only sig _ Hsig Hin) in Hev. exact Hev.
    + apply startup_only in Hin. destruct ev; contradiction.
    + pose proof (@signal_only sig _ Hsig Hin). subst ev. discriminate.
    + subst ev. contradiction.
    + rewrite (@signal_only sig _ Hsig Hin) in Hev. exact Hev.
    + apply startup_only in Hin. destruct ev; contradiction.
Qed.

Lemma store_ready_before_tasks_witness :
  let tr := trace (snd (Run (env0 ["eth"] None None)
                            (app0 (cfg None postgres0))
                            (initial [MainResumes; MainResumes;
                                      ChainEmits "eth" "Transfer";
                                      MainResumes; Signal;
                                      ChainLoopEnds "eth" LoopCancelled;
                                      ServerReturns None]))) in
  guarded is_start
    (store_prepared (env0 ["eth"] None None) (app0 (cfg None postgres0))
                    {| URL := "postgres://monitor" |}) tr /\
  guarded (eq (EvAdd Database))
    (store_prepared (env0 ["eth"] None None) (app0 (cfg None postgres0))
                    {| URL := "postgres://monitor" |}) tr /\
  guarded (is_deliver_to Database)
    (fun pre =>
       store_prepared (env0 ["eth"] None None) (app0 (cfg None postgres0))
                      {| URL := "postgres://monitor" |} pre /\
       In (EvAdd Database) pre) tr.
Proof.
  apply (@store_ready_before_tasks (env0 ["eth"] None None)
           (app0 (cfg None postgres0)) _ {| URL := "postgres://monitor" |}).
  reflexivity.
Defined.

(** ** A store that cannot be reached *)

(** C5, as stated, fails: when [Connect] fails the chains have already been
    built by [NewChains]. *)
Lemma chains_built_before_connect :
  ~ (forall E a s pg err,
        Postgres (Outputs (config a)) = Some pg ->
        Connect E (URL pg) = Some err ->
        fst (Run E a (initial s)) = Exited 1 /\
        absent is_chains_built (trace (snd (Run E a (initial s)))) /\
        absent is_start (trace (snd (Run E a (initial s))))).
Proof.
  intros H.
  destruct (H (env0 ["eth"] (Some "connection refused") None)
              (app0 (cfg None postgres0)) []
              {| URL := "postgres://monitor" |} "connection refused"
              eq_refl eq_refl) as (_ & Hbuilt & _).
  apply (Hbuilt (EvNewChains ["eth"])); [| exact I].
  vm_compute. auto 10.
Qed.

(** C5, amended. With a Postgres section whose [Connect] fails, [Run] exits
    the process with the fatal log of the connect step as its last event;
    by then the chains have been built but no task has been handed to the
    group. *)
Theorem connect_failure_exits_before_tasks (E : Env) (a : app)
  (s : list Action) (pg : PostgresConfig) (err : error) :
  Postgres (Outputs (config a)) = Some pg ->
  Connect E (URL pg) = Some err ->
  fst (Run E a (initial s)) = Exited 1 /\
  (exists sig,
      Forall (eq EvSignal) sig /\
      trace (snd (Run E a (initial s))) =
      sig ++ [EvSetCtx CtxGroup; EvNewOutputs] ++ console_events (config a) ++
      [EvNewLogHandler; EvNewChains (chains_of E a); EvNewDatabase;
       EvConnect (URL pg) (Some err);
       EvLog FatalLevel "Failed to connect Postgres" ["url"; URL pg]]) /\
  absent is_start (trace (snd (Run E a (initial s)))).
Proof.
  intros Hp Hc.
  destruct (@connect_failure_startup E a pg err Hp Hc) as [Hr Hse].
  pose proof (Run_shape E a s) as H. unfold run_shape in H.
  rewrite Hr in H. destruct H as (sig & Htr & Hsig & Hexit).
  split; [exact Hexit |]. split.
  - exists sig. split; [exact Hsig |]. now rewrite Htr, Hse.
  - rewrite Htr. intros ev Hin Hev. apply in_app_or in Hin.
    destruct Hin as [Hin | Hin].
    + rewrite (@signal_only sig ev Hsig Hin) in Hev. exact Hev.
    + apply startup_only in Hin. destruct ev; contradiction.
Qed.

Lemma connect_failure_exits_before_tasks_witness :
  fst (Run (env0 ["eth"] (Some "connection refused") None)
           (app0 (cfg None postgres0)) (initial [Signal])) = Exited 1 /\
  (exists sig,
      Forall (eq EvSignal) sig /\
      trace (snd (Run (env0 ["eth"] (Some "connection refused") None)
                      (app0 (cfg None postgres0)) (initial [Signal]))) =
      sig ++ [EvSetCtx CtxGroup; EvNewOutputs] ++
      console_events (cfg None postgres0) ++
      [EvNewLogHandler; EvNewChains ["eth"]; EvNewDatabase;
       EvConnect "postgres://monitor" (Some "connection refused");
       EvLog FatalLevel "Failed to connect Postgres"
             ["url"; "postgres://monitor"]]) /\
  absent is_start
    (trace (snd (Run (env0 ["eth"] (Some "connection refused") None)
                     (app0 (cfg None postgres0)) (initial [Signal])))).
Proof.
  apply (@connect_failure_exits_before_tasks
           (env0 ["eth"] (Some "connection refused") None)
           (app0 (cfg None postgres0)) [Signal]
           {| URL := "postgres://monitor" |} "connection refused");
    reflexivity.
Defined.

(** ** Releasing the store *)

(** C4. With a store that connected and migrated: a run that returns ends
    with [Wait] returning nil followed by the one deferred [Close]; a run
    that exits through the fatal log has connected the store and never
    closes it. *)
Theorem close_skipped_on_fatal_exit (E : Env) (a : app) (s : list Action)
  (pg : PostgresConfig) :
  Postgres (Outputs (config a)) = Some pg ->
  store_ready E a = true ->
  match fst (Run E a (initial s)) with
  | Returned _ =>
      exists pre,
        trace (snd (Run E a (initial s))) = pre ++ [EvWait None; EvClose] /\
        ~ In EvClose pre
  | Exited _ =>
      In (EvConnect (URL pg) None) (trace (snd (Run E a (initial s)))) /\
      ~ In EvClose (trace (snd (Run E a (initial s))))
  | _ => True
  end.
Proof.
  intros Hp Hr.
  pose proof (Run_shape E a s) as H. unfold run_shape in H. rewrite Hr in H.
  destruct (Run E a (initial s)) as [o w]. cbn [fst snd].
  destruct H as (sig & body & tail & Htr & Hsig & Hbody & _ & _ & _ & Hend).
  assert (Hpre : forall ev, In ev (sig ++ startup_events E a ++ body) ->
                            ev <> EvClose)
    by (intros ev Hin; now apply (@before_tail E a sig body ev Hr Hsig Hbody)).
  assert (Hassoc : forall l, sig ++ startup_events E a ++ body ++ l =
                             (sig ++ startup_events E a ++ body) ++ l)
    by (intros l; now rewrite <- !app_assoc).
  destruct o as [a' | c | m |]; [| | exact I | exact I]; cbn in Hend.
  - destruct Hend as (_ & -> & _).
    unfold closing in Htr. rewrite Hp in Htr. cbn [map] in Htr.
    exists (sig ++ startup_events E a ++ body).
    split; [now rewrite Htr, Hassoc |].
    intros Hin. now apply (Hpre _ Hin).
  - destruct Hend as (_ & e & -> & _).
    destruct (@store_startup E a pg Hp Hr) as (early & Hse & [Hc _] & _).
    split.
    + rewrite Htr, Hse. apply in_or_app. right. apply in_or_app. left.
      apply in_or_app. now left.
    + rewrite Htr, Hassoc. intros Hin. apply in_app_or in Hin.
      destruct Hin as [Hin | Hin]; [now apply (Hpre _ Hin) |].
      destruct Hin as [Hin | [Hin | []]]; discriminate.
Qed.

Lemma close_skipped_on_fatal_exit_witness :
  let r := Run (env0 ["eth"] None None) (app0 (cfg None postgres0))
               (initial [MainResumes; MainResumes; MainResumes;
                         ServerReturns (Some "address already in use");
                         ChainLoopEnds "eth" LoopCancelled]) in
  fst r = Exited 1 /\
  In (EvConnect "postgres://monitor" None) (trace (snd r)) /\
  ~ In EvClose (trace (snd r)).
Proof.
  split; [reflexivity |].
  exact (@close_skipped_on_fatal_exit (env0 ["eth"] None None)
           (app0 (cfg None postgres0))
           [MainResumes; MainResumes; MainResumes;
            ServerReturns (Some "address already in use");
            ChainLoopEnds "eth" LoopCancelled]
           {| URL := "postgres://monitor" |} eq_refl eq_refl).
Defined.

(** ** The outcome of the group *)

(** C2. With a ready store and a schedule in which every task returns:
    the first error returned by the server becomes the group's error and
    cancels the group's context at once; every task was handed that
    context; if the server returns the error
    [e], [Wait] returns [e] after the server and every chain task have
    returned, the wait group is empty, the group's context is cancelled and
    the process exits through the fatal log, which is the last event; if the
    server returns nil, [Wait] returns nil, nothing fatal is logged and
    [Run] returns. *)
Theorem server_outcome_is_group_outcome (E : Env) (a : app)
  (s1 s2 : list Action) :
  store_ready E a = true ->
  all_return (chains_of E a) s1 s2 ->
  let r := Run E a (initial (s1 ++ s2)) in
  (forall e w,
      running ServerTask w = true -> g_once w = false ->
      g_err (step (ServerReturns (Some e)) w) = Some e /\
      gctx_done (step (ServerReturns (Some e)) w) = true) /\
  (forall t sc, In (EvGo t sc) (trace (snd r)) -> sc = Some CtxGroup) /\
  (forall e,
      Forall (server_returns (Some e)) (s1 ++ s2) ->
      fst r = Exited 1 /\ g_wg (snd r) = [] /\ gctx_done (snd r) = true /\
      exists pre,
        trace (snd r) =
        pre ++ [EvWait (Some e);
                EvLog FatalLevel "Application error: %v" [e]] /\
        In (EvTaskReturn ServerTask (Some e)) pre /\
        (forall c, In c (chains_of E a) ->
                   In (EvTaskReturn (ChainTask c) None) pre)) /\
  (Forall (server_returns None) (s1 ++ s2) ->
   fst r = Returned (set_app_ctx a CtxGroup) /\
   In (EvWait None) (trace (snd r)) /\
   absent is_fatal (trace (snd r))).
Proof.
  intros Hr Hall. cbn zeta. split; [| split; [| split]].
  - intros e w Hrun Honce. cbn [step]. rewrite Hrun.
    unfold goroutine_returns, server_func. cbn. rewrite Honce. cbn. auto.
  - intros t sc Hin. pose proof (Run_events E a (s1 ++ s2)) as Hev.
    rewrite Forall_forall in Hev. exact (Hev _ Hin).
  - intros e Hplay.
    destruct (@Run_completes E a s1 s2 (Some e) Hr Hall Hplay)
      as (pre & tail & Htr & _ & Hserver & Hchains & _ & Hwg & Hdone
          & Hexit & ->).
    repeat (split; [assumption |]). now exists pre.
  - intros Hplay.
    destruct (@Run_completes E a s1 s2 None Hr Hall Hplay)
      as (pre & tail & Htr & Hpre & _ & _ & _ & _ & _ & Hret & ->).
    split; [exact Hret |]. rewrite Htr. split.
    + apply in_or_app. right. now left.
    + intros ev Hin. apply in_app_or in Hin. destruct Hin as [Hin | Hin].
      * now apply Hpre.
      * destruct Hin as [<- | Hin]; [auto |].
        apply in_map_iff in Hin. destruct Hin as [d [<- _]]. auto.
Qed.

Lemma server_outcome_is_group_outcome_witness :
  let r := Run (env0 ["eth"] None None) (app0 (cfg None postgres0))
               (initial ([MainResumes; MainResumes; MainResumes] ++
                         [ServerReturns (Some "address already in use");
                          ChainLoopEnds "eth" LoopCancelled])) in
  fst r = Exited 1 /\ g_wg (snd r) = [] /\ gctx_done (snd r) = true /\
  exists pre,
    trace (snd r) =
    pre ++ [EvWait (Some "address already in use");
            EvLog FatalLevel "Application error: %v"
                  ["address already in use"]] /\
    In (EvTaskReturn ServerTask (Some "address already in use")) pre /\
    (forall c, In c (chains_of (env0 ["eth"] None None)
                               (app0 (cfg None postgres0))) ->
               In (EvTaskReturn (ChainTask c) None) pre).
Proof.
  assert (Hall : all_return
                   (chains_of (env0 ["eth"] None None)
                              (app0 (cfg None postgres0)))
                   [MainResumes; MainResumes; MainResumes]
                   [ServerReturns (Some "address already in use");
                    ChainLoopEnds "eth" LoopCancelled]).
  { split; [vm_compute; lia |].
    intros [c |]; [| vm_compute; lia].
    cbn [chains_of NewChains env0 tasks_of map List.app count_occ].
    destruct (Task_eq_dec (ChainTask "eth") (ChainTask c)) as [H | H].
    - injection H as <-. vm_compute. lia.
    - destruct (Task_eq_dec ServerTask (ChainTask c)); [discriminate | lia]. }
  destruct (@server_outcome_is_group_outcome (env0 ["eth"] None None)
              (app0 (cfg None postgres0))
              [MainResumes; MainResumes; MainResumes]
              [ServerReturns (Some "address already in use");
               ChainLoopEnds "eth" LoopCancelled] eq_refl Hall)
    as (_ & _ & Herr & _).
  apply Herr.
  repeat constructor; intros r' Hr'; try discriminate.
  now injection Hr' as <-.
Defined.

(** ** Shutdown *)

(** C7. With a ready store, a schedule that delivers the termination signal
    and in which every task returns, the server returning nil: [Wait]
    returns nil, the group has no error, nothing fatal is logged, every
    chain task has returned nil and [Run] returns. *)
Theorem shutdown_returns_cleanly (E : Env) (a : app) (s1 s2 : list Action) :
  store_ready E a = true ->
  all_return (chains_of E a) s1 s2 ->
  In Signal (s1 ++ s2) ->
  Forall (server_returns None) (s1 ++ s2) ->
  let r := Run E a (initial (s1 ++ s2)) in
  fst r = Returned (set_app_ctx a CtxGroup) /\
  In (EvWait None) (trace (snd r)) /\
  g_err (snd r) = None /\
  absent is_fatal (trace (snd r)) /\
  (forall c, In c (chains_of E a) ->
             In (EvTaskReturn (ChainTask c) None) (trace (snd r))) /\
  In (EvTaskReturn ServerTask None) (trace (snd r)).
Proof.
  intros Hr Hall _ Hplay. cbn zeta.
  destruct (@Run_completes E a s1 s2 None Hr Hall Hplay)
    as (pre & tail & Htr & Hpre & Hserver & Hchains & Herr & _ & _ & Hret
        & ->).
  split; [exact Hret |]. rewrite Htr.
  split; [apply in_or_app; right; now left |].
  split; [exact Herr |].
  split.
  { intros ev Hin. apply in_app_or in Hin. destruct Hin as [Hin | Hin].
    - now apply Hpre.
    - destruct Hin as [<- | Hin]; [auto |].
      apply in_map_iff in Hin. destruct Hin as [d [<- _]]. auto. }
  split.
  - intros c Hc. apply in_or_app. left. now apply Hchains.
  - apply in_or_app. now left.
Qed.

Lemma shutdown_returns_cleanly_witness :
  let r := Run (env0 ["eth"] None None) (app0 (cfg None None))
               (initial ([MainResumes; MainResumes; MainResumes] ++
                         [Signal; ServerReturns None;
                          ChainLoopEnds "eth" LoopCancelled])) in
  fst r = Returned (set_app_ctx (app0 (cfg None None)) CtxGroup) /\
  In (EvWait None) (trace (snd r)) /\
  g_err (snd r) = None /\
  absent is_fatal (trace (snd r)) /\
  (forall c, In c (chains_of (env0 ["eth"] None None)
                             (app0 (cfg None None))) ->
             In (EvTaskReturn (ChainTask c) None) (trace (snd r))) /\
  In (EvTaskReturn ServerTask None) (trace (snd r)).
Proof.
  apply (@shutdown_returns_cleanly (env0 ["eth"] None None)
           (app0 (cfg None None))
           [MainResumes; MainResumes; MainResumes]
           [Signal; ServerReturns None; ChainLoopEnds "eth" LoopCancelled]).
  - reflexivity.
  - split; [vm_compute; lia |].
    intros [c |]; [| vm_compute; lia].
    cbn [chains_of NewChains env0 tasks_of map List.app count_occ].
    destruct (Task_eq_dec (ChainTask "eth") (ChainTask c)) as [H | H].
    + injection H as <-. vm_compute. lia.
    + destruct (Task_eq_dec ServerTask (ChainTask c)); [discriminate | lia].
  - vm_compute. auto 10.
  - repeat constructor; intros r' Hr'; try discriminate.
    now injection Hr' as <-.
Defined.

(** ** No destination at all *)

(** C10. With the console disabled and no Postgres section, in every run:
    the output collection is empty and nothing is ever added to it; every
    task is handed to the group; no event is delivered anywhere, a dispatch
    over the empty collection leaving the world as it is; [Run] does not
    panic, and it exits only when [Wait] returns an error that the server
    returned. *)
Theorem no_destination_run (E : Env) (a : app) (s : list Action)
  (cc : ConsoleConfig) :
  Console (Outputs (config a)) = Some cc ->
  Disabled cc = true ->
  Postgres (Outputs (config a)) = None ->
  let r := Run E a (initial s) in
  outputs (snd r) = [] /\
  (forall o, ~ In (EvAdd o) (trace (snd r))) /\
  (forall t, In t (tasks_of (chains_of E a)) ->
             In (EvGo t (Some CtxGroup)) (trace (snd r))) /\
  absent is_deliver (trace (snd r)) /\
  (forall c p w, outputs w = [] -> Dispatch c p w = w) /\
  (forall m, fst r <> Panicked m) /\
  (forall c, fst r = Exited c ->
             exists e, In (EvTaskReturn ServerTask (Some e)) (trace (snd r)) /\
                       In (EvWait (Some e)) (trace (snd r))).
Proof.
  intros Hc Hd Hp. cbn zeta.
  assert (Hwant : console_wanted (config a) = false)
    by (unfold console_wanted; now rewrite Hc, Hd).
  assert (Hreg : registered a = [])
    by (unfold registered; now rewrite Hwant, Hp).
  assert (Hr : store_ready E a = true)
    by (unfold store_ready; now rewrite Hp).
  pose proof (Run_events E a s) as Hev. rewrite Forall_forall in Hev.
  pose proof (Run_shape E a s) as H. unfold run_shape in H. rewrite Hr in H.
  destruct (Run E a (initial s)) as [o w]. cbn [fst snd] in *.
  destruct H as (sig & body & tail & Htr & Hsig & Hbody & Hgo & Hout & Hg
                 & Hend).
  split; [now rewrite Hout |].
  split.
  { intros out Hin. specialize (Hev _ Hin). cbn in Hev.
    destruct out; [congruence | now apply Hev]. }
  split.
  { intros t Ht. rewrite Htr. apply in_or_app. right. apply in_or_app. right.
    apply in_or_app. left. now apply Hgo. }
  split.
  { intros ev Hin Hdel. specialize (Hev _ Hin).
    destruct ev; try contradiction. cbn in Hev. now rewrite Hreg in Hev. }
  split.
  { intros c p w0 Hw0. rewrite Dispatch_emits, Hw0. apply emits_nil. }
  split.
  { intros m ->. exact Hend. }
  intros c ->. cbn in Hend. destruct Hend as (_ & e & -> & Herr & _).
  exists e. destruct Hg as (_ & HJ1 & _). split; [now apply HJ1 |].
  rewrite Htr. apply in_or_app. right. apply in_or_app. right.
  apply in_or_app. right. now left.
Qed.

Lemma no_destination_run_witness :
  let r := Run (env0 ["eth"] None None)
               (app0 (cfg (Some {| Disabled := true |}) None))
               (initial [MainResumes; MainResumes;
                         ChainEmits "eth" "Transfer"; MainResumes;
                         ChainEmits "eth" "Approval"; Signal;
                         ChainLoopEnds "eth" LoopCancelled;
                         ServerReturns None]) in
  outputs (snd r) = [] /\
  (forall o, ~ In (EvAdd o) (trace (snd r))) /\
  (forall t, In t (tasks_of (chains_of (env0 ["eth"] None None)
                      (app0 (cfg (Some {| Disabled := true |}) None)))) ->
             In (EvGo t (Some CtxGroup)) (trace (snd r))) /\
  absent is_deliver (trace (snd r)) /\
  (forall c p w, outputs w = [] -> Dispatch c p w = w) /\
  (forall m, fst r <> Panicked m) /\
  (forall c, fst r = Exited c ->
             exists e, In (EvTaskReturn ServerTask (Some e)) (trace (snd r)) /\
                       In (EvWait (Some e)) (trace (snd r))).
Proof.
  apply (@no_destination_run (env0 ["eth"] None None)
           (app0 (cfg (Some {| Disabled := true |}) None)) _
           {| Disabled := true |}); reflexivity.
Defined.

(** * Further properties of app.go *)

(** ** A rule for whole runs

    A property of the root context and the trace that the main goroutine's
    own events keep, and that the actions of the schedule keep, holds at the
    end of every run. *)

Lemma startup_fails_root (E : Env) (a : app) (w : World) :
  store_ready E a = false ->
  exists w', startup E a w = (Exited 1, w') /\
             trace w' = trace w ++ startup_events E a /\
             ctx_done w' = ctx_done w.
Proof.
  unfold store_ready, startup, startup_events, console_events,
    store_events, chains_of.
  unfold errgroup_WithContext, NewOutputs, NewLoggerOutput, Add,
    NewLogHandler, do_NewChains, NewDatabase, db_Connect, db_MigrateSchema,
    Fatalw, defer, when, log, os_Exit, act, ret, bind.
  cbn.
  destruct (console_wanted (config a));
    destruct (Postgres (Outputs (config a))) as [pg |]; cbn;
    try destruct (Connect E (URL pg)); cbn;
    try destruct (MigrateSchema E _); cbn; intros H; try discriminate;
    eexists; (split; [reflexivity |]); cbn; (split; [| reflexivity]);
    repeat rewrite <- app_assoc; reflexivity.
Qed.

Lemma startup_kind_main (es : list Event) :
  Forall startup_kind es -> Forall main_event es.
Proof. apply Forall_impl. intros e. destruct e; cbn; auto. Qed.

Section Keeps.

Variable ok : Action -> Prop.
Variable R : bool -> list Event -> Prop.

Hypothesis R_main :
  forall b tr e, main_event e -> R b tr -> R b (tr ++ [e]).
Hypothesis R_step :
  forall act w, ok act -> R (ctx_done w) (trace w) ->
                R (ctx_done (step act w)) (trace (step act w)).

Lemma keeps_app (b : bool) (es tr : list Event) :
  Forall main_event es -> R b tr -> R b (tr ++ es).
Proof.
  revert tr. induction es as [| e es IH]; intros tr Hes Htr.
  - now rewrite app_nil_r.
  - inversion Hes as [| ? ? He Hes']; subst.
    replace (tr ++ e :: es) with ((tr ++ [e]) ++ es)
      by (rewrite <- app_assoc; reflexivity).
    apply IH; [assumption | now apply R_main].
Qed.

Lemma keeps_stable : stable ok (fun w => R (ctx_done w) (trace w)).
Proof. split; [exact R_step | intros s w H; exact H]. Qed.

Lemma keeps_Go (t : Task) (sc : option Ctx) X :
  triple (fun w => R (ctx_done w) (trace w) /\ plays ok w) (Go t sc)
         (fun _ w => R (ctx_done w) (trace w) /\ plays ok w) X.
Proof.
  intros w [Hw Hplay]. rewrite Go_eq. cbn [post].
  apply (@overtaken_stable ok _ keeps_stable (sched w) (go_world t sc w) Hplay).
  cbn. apply R_main; [exact I | exact Hw].
Qed.

Lemma keeps_finish (a : app) (w : World) :
  R (ctx_done w) (trace w) -> plays ok w ->
  R (ctx_done (snd (finish a w))) (trace (snd (finish a w))).
Proof.
  intros Hw Hplay. rewrite finish_eq.
  pose proof (@wg_Wait_stable ok _ keeps_stable (sched w) w Hplay Hw) as H.
  destruct (wg_Wait (sched w) w) as [[[] | c | m |] w']; cbn in H;
    try (destruct H as [_ H]; exact H).
  destruct H as [H _].
  destruct (g_err w') as [e |]; cbn.
  - apply R_main; [exact I |]. apply R_main; [exact I | exact H].
  - apply R_main; [exact I | exact H].
Qed.

Lemma keeps_launch (a : app) (chains : list Chain) (w : World) :
  R (ctx_done w) (trace w) -> plays ok w ->
  R (ctx_done (snd (launch a chains w))) (trace (snd (launch a chains w))).
Proof.
  intros Hw Hplay.
  set (P := fun w => R (ctx_done w) (trace w)).
  assert (H : triple (fun w => P w /\ plays ok w) (launch a chains)
                     (fun _ w => P w) (fun _ w => P w)).
  { unfold launch.
    eapply triple_bind with (R := fun _ w => P w /\ plays ok w).
    { apply (@triple_for_range Chain
               (fun _ _ w => P w /\ plays ok w) _ _
               (fun done x todo => @keeps_Go (ChainTask x) (Some CtxGroup) _)
               chains []). }
    intros [].
    eapply triple_bind with (R := fun _ w => P w /\ plays ok w).
    { unfold NewServer, log. apply triple_act. intros w0 [H0 Hp0].
      split; [| exact Hp0]. unfold P. cbn. now apply R_main. }
    intros [].
    eapply triple_bind with (R := fun _ w => P w /\ plays ok w).
    { apply keeps_Go. }
    intros [] w0 [H0 Hp0].
    pose proof (@keeps_finish a w0 H0 Hp0) as Hf.
    destruct (finish a w0) as [[a' | c | m |] w']; exact Hf. }
  specialize (H w (conj Hw Hplay)).
  destruct (launch a chains w) as [[a' | c | m |] w']; exact H.
Qed.

Lemma Run_keeps (E : Env) (a : app) (s : list Action) :
  Forall ok s -> R false [] ->
  R (ctx_done (snd (Run E a (initial s))))
    (trace (snd (Run E a (initial s)))).
Proof.
  intros Hplay H0.
  rewrite Run_phases, func_unwound. unfold bind. rewrite prelude_initial.
  set (w0 := mkWorld [] s true false false [] false None [] []).
  destruct (@overtaken_stable ok _ keeps_stable s w0 Hplay H0) as [H1 Hp1].
  set (w1 := overtaken s w0) in *. clearbody w1.
  assert (Hmain : Forall main_event (startup_events E a))
    by (apply startup_kind_main, startup_events_kind).
  destruct (store_ready E a) eqn:Hready.
  - rewrite (@startup_ready E a w1 Hready).
    assert (H2 : R (ctx_done (started_world E a w1))
                   (trace (started_world E a w1)))
      by (cbn; now apply keeps_app).
    pose proof (@keeps_launch (set_app_ctx a CtxGroup) (chains_of E a)
                  (started_world E a w1) H2 Hp1) as H3.
    destruct (launch (set_app_ctx a CtxGroup) (chains_of E a)
                     (started_world E a w1)) as [[a' | c | m |] w2];
      cbn [fst snd] in *; try exact H3;
      rewrite unwound_emits; cbn; apply keeps_app; try exact H3;
      apply Forall_forall; intros e He; apply in_map_iff in He;
      destruct He as [d [<- _]]; exact I.
  - destruct (@startup_fails_root E a w1 Hready) as [w' (-> & Htr & Hc)].
    cbn. rewrite Htr, Hc. now apply keeps_app.
Qed.

End Keeps.

(** ** Tasks that never return *)

Lemma Run_returns_scheduled (E : Env) (a : app) (s : list Action) :
  returns_scheduled s (trace (snd (Run E a (initial s)))).
Proof.
  apply (@Run_keeps (fun act => In act s)
           (fun _ tr => returns_scheduled s tr)).
  - intros b tr e He H t r Hin. apply in_app_or in Hin.
    destruct Hin as [Hin | [Heq | []]]; [now apply (H t r) |].
    subst e. contradiction.
  - intros act w Hok H.
    destruct (step_stepped act w) as
      [act | Ha | c p Hin | c r Hin | Hin | e Hin Ho | e Hin Ho];
      cbn [trace emits]; try exact H;
      intros t r' Hin'; apply in_app_or in Hin';
      destruct Hin' as [Hin' | Hin']; try (now apply (H t r'));
      try (now apply not_a_return in Hin');
      destruct Hin' as [Hin' | []]; try discriminate;
      injection Hin' as <- <-; eexists; (split; [exact Hok |]); cbn;
      try reflexivity; apply String.eqb_refl.
  - apply Forall_forall. auto.
  - intros t r [].
Qed.

(** X3. If the schedule never lets one of the started tasks return, [Run]
    neither returns nor exits: [Wait] has not returned, nothing fatal is
    logged and the store is not closed, whatever the other tasks did. *)
Theorem hung_task_blocks_run (E : Env) (a : app) (s : list Action)
  (t : Task) :
  store_ready E a = true ->
  In t (tasks_of (chains_of E a)) ->
  (forall act, In act s -> ends t act = false) ->
  fst (Run E a (initial s)) = Blocked /\
  forall ev, In ev (trace (snd (Run E a (initial s)))) ->
             ev <> EvClose /\ ~ is_fatal ev /\ forall r, ev <> EvWait r.
Proof.
  intros Hr Ht Hnever.
  pose proof (Run_returns_scheduled E a s) as Hsched.
  pose proof (Run_shape E a s) as H. unfold run_shape in H. rewrite Hr in H.
  destruct (Run E a (initial s)) as [o w]. cbn [fst snd] in *.
  destruct H as (sig & body & tail & Htr & Hsig & Hbody & Hgo & _ & Hg & Hend).
  assert (Htr' : trace w = (sig ++ startup_events E a ++ body) ++ tail)
    by (rewrite Htr; now rewrite <- !app_assoc).
  destruct (@ended_tail a o w tail Hend) as [_ Htail].
  assert (Hstuck : g_wg w = [] -> False).
  { intros Hwg.
    destruct (@all_returned w _ tail t Hg Hwg Htr' Htail) as [r Hin].
    - apply in_or_app. right. apply in_or_app. right. now apply Hgo.
    - destruct (Hsched t r) as [act [Hact Hends]].
      + rewrite Htr'. apply in_or_app. now left.
      + rewrite (Hnever act Hact) in Hends. discriminate. }
  destruct o as [a' | c | m |]; cbn in Hend.
  - exfalso. apply Hstuck. now destruct Hend as (_ & _ & _ & ? & _).
  - exfalso. apply Hstuck. now destruct Hend as (_ & e & _ & _ & ? & _).
  - contradiction.
  - split; [reflexivity |]. subst tail. rewrite Htr', app_nil_r.
    intros ev Hin. now apply (@before_tail E a sig body ev Hr Hsig Hbody).
Qed.

Lemma hung_task_blocks_run_witness :
  let r := Run (env0 ["eth"] None None) (app0 (cfg None postgres0))
               (initial [MainResumes; MainResumes; MainResumes; Signal;
                         ServerReturns (Some "address already in use")]) in
  fst r = Blocked /\
  forall ev, In ev (trace (snd r)) ->
             ev <> EvClose /\ ~ is_fatal ev /\ forall r', ev <> EvWait r'.
Proof.
  apply (@hung_task_blocks_run (env0 ["eth"] None None)
           (app0 (cfg None postgres0)) _ (ChainTask "eth")).
  - reflexivity.
  - vm_compute. auto.
  - intros act Hin. repeat (destruct Hin as [<- | Hin]; [reflexivity |]).
    contradiction.
Defined.

(** ** The root context *)

(** X9. In every run the root context, the one handed to [Connect],
    [MigrateSchema] and [Close], is cancelled exactly when the termination
    signal was received, and the signal is received only if it is
    delivered: an error of the server and the return of [Wait] cancel the
    group's context only. *)
Theorem root_context_follows_signal (E : Env) (a : app) (s : list Action) :
  root_follows_signal s (ctx_done (snd (Run E a (initial s))))
                      (trace (snd (Run E a (initial s)))).
Proof.
  apply (@Run_keeps (fun act => In act s) (root_follows_signal s)).
  - intros b tr e He [H1 H2]. split.
    + rewrite H1. split; intros Hin.
      * apply in_or_app. now left.
      * apply in_app_or in Hin. destruct Hin as [Hin | [Heq | []]];
          [assumption | subst e; contradiction].
    + intros Hin. apply H2. apply in_app_or in Hin.
      destruct Hin as [Hin | [Heq | []]]; [assumption | subst e; contradiction].
  - intros act w Hok [H1 H2].
    destruct (step_stepped act w) as
      [act | Ha | c p Hin | c r Hin | Hin | e Hin Ho | e Hin Ho];
      cbn [trace ctx_done emits].
    + now split.
    + split; [| intros _; exact Hok].
      split; [intros _; apply in_or_app; right; now left | reflexivity].
    + split.
      * rewrite H1. split; intros Hin'.
        -- apply in_or_app. now left.
        -- apply in_app_or in Hin'. destruct Hin' as [Hin' | Hin'];
             [assumption |].
           apply in_map_iff in Hin'. destruct Hin' as [o [Ho _]].
           discriminate.
      * intros Hin'. apply H2. apply in_app_or in Hin'.
        destruct Hin' as [Hin' | Hin']; [assumption |].
        apply in_map_iff in Hin'. destruct Hin' as [o [Ho _]]. discriminate.
    + split.
      * rewrite H1. split; intros Hin'; [apply in_or_app; now left |].
        apply in_app_or in Hin'.
        destruct Hin' as [Hin' | [Hin' | []]]; [assumption | discriminate].
      * intros Hin'. apply H2. apply in_app_or in Hin'.
        destruct Hin' as [Hin' | [Hin' | []]]; [assumption | discriminate].
    + split.
      * rewrite H1. split; intros Hin'; [apply in_or_app; now left |].
        apply in_app_or in Hin'.
        destruct Hin' as [Hin' | [Hin' | []]]; [assumption | discriminate].
      * intros Hin'. apply H2. apply in_app_or in Hin'.
        destruct Hin' as [Hin' | [Hin' | []]]; [assumption | discriminate].
    + split.
      * rewrite H1. split; intros Hin'; [apply in_or_app; now left |].
        apply in_app_or in Hin'.
        destruct Hin' as [Hin' | [Hin' | []]]; [assumption | discriminate].
      * intros Hin'. apply H2. apply in_app_or in Hin'.
        destruct Hin' as [Hin' | [Hin' | []]]; [assumption | discriminate].
    + split.
      * rewrite H1. split; intros Hin'; [apply in_or_app; now left |].
        apply in_app_or in Hin'.
        destruct Hin' as [Hin' | [Hin' | []]]; [assumption | discriminate].
      * intros Hin'. apply H2. apply in_app_or in Hin'.
        destruct Hin' as [Hin' | [Hin' | []]]; [assumption | discriminate].
  - apply Forall_forall. auto.
  - split; [split; [discriminate | intros []] | intros []].
Qed.

(** ** A schema that cannot be prepared *)

Lemma migrate_failure_startup (E : Env) (a : app) (pg : PostgresConfig)
  (err : error) :
  Postgres (Outputs (config a)) = Some pg ->
  Connect E (URL pg) = None ->
  MigrateSchema E (chains_of E a) = Some err ->
  store_ready E a = false /\
  startup_events E a =
  [EvSetCtx CtxGroup; EvNewOutputs] ++ console_events (config a) ++
  [EvNewLogHandler; EvNewChains (chains_of E a); EvNewDatabase;
   EvConnect (URL pg) None;
   EvMigrateSchema (chains_of E a) (Some err);
   EvLog FatalLevel "Database.CreateSchemas failed" ["err"; err]].
Proof.
  intros Hp Hc Hm. unfold store_ready, startup_events, store_events.
  now rewrite Hp, Hc, Hm.
Qed.

(** X1. With a Postgres section whose [Connect] succeeds and whose
    [MigrateSchema] fails, [Run] exits the process with the fatal log of the
    migration as its last event: the store was connected, but it is neither
    added to the outputs nor closed, and no task is handed to the group. *)
Theorem migrate_failure_exits_before_tasks (E : Env) (a : app)
  (s : list Action) (pg : PostgresConfig) (err : error) :
  Postgres (Outputs (config a)) = Some pg ->
  Connect E (URL pg) = None ->
  MigrateSchema E (chains_of E a) = Some err ->
  fst (Run E a (initial s)) = Exited 1 /\
  (exists sig,
      Forall (eq EvSignal) sig /\
      trace (snd (Run E a (initial s))) =
      sig ++ [EvSetCtx CtxGroup; EvNewOutputs] ++ console_events (config a) ++
      [EvNewLogHandler; EvNewChains (chains_of E a); EvNewDatabase;
       EvConnect (URL pg) None;
       EvMigrateSchema (chains_of E a) (Some err);
       EvLog FatalLevel "Database.CreateSchemas failed" ["err"; err]]) /\
  absent is_start (trace (snd (Run E a (initial s)))) /\
  ~ In (EvAdd Database) (trace (snd (Run E a (initial s)))) /\
  ~ In EvClose (trace (snd (Run E a (initial s)))).
Proof.
  intros Hp Hc Hm.
  destruct (@migrate_failure_startup E a pg err Hp Hc Hm) as [Hr Hse].
  destruct (@failed_startup E a Hr) as [Hnot _].
  pose proof (Run_shape E a s) as H. unfold run_shape in H.
  rewrite Hr in H. destruct H as (sig & Htr & Hsig & Hexit).
  split; [exact Hexit |]. split.
  { exists sig. split; [exact Hsig |]. now rewrite Htr, Hse. }
  rewrite Htr. split; [| split].
  - intros ev Hin Hev. apply in_app_or in Hin. destruct Hin as [Hin | Hin].
    + rewrite (@signal_only sig ev Hsig Hin) in Hev. exact Hev.
    + apply startup_only in Hin. destruct ev; contradiction.
  - intros Hin. apply in_app_or in Hin. destruct Hin as [Hin | Hin].
    + pose proof (@signal_only sig _ Hsig Hin). discriminate.
    + contradiction.
  - intros Hin. apply in_app_or in Hin. destruct Hin as [Hin | Hin].
    + pose proof (@signal_only sig _ Hsig Hin). discriminate.
    + apply startup_only in Hin. exact Hin.
Qed.

Lemma migrate_failure_exits_before_tasks_witness :
  let r := Run (env0 ["eth"] None (Some "permission denied"))
               (app0 (cfg None postgres0)) (initial [Signal; MainResumes]) in
  fst r = Exited 1 /\
  (exists sig,
      Forall (eq EvSignal) sig /\
      trace (snd r) =
      sig ++ [EvSetCtx CtxGroup; EvNewOutputs] ++
      console_events (cfg None postgres0) ++
      [EvNewLogHandler; EvNewChains ["eth"]; EvNewDatabase;
       EvConnect "postgres://monitor" None;
       EvMigrateSchema ["eth"] (Some "permission denied");
       EvLog FatalLevel "Database.CreateSchemas failed"
             ["err"; "permission denied"]]) /\
  absent is_start (trace (snd r)) /\
  ~ In (EvAdd Database) (trace (snd r)) /\
  ~ In EvClose (trace (snd r)).
Proof.
  apply (@migrate_failure_exits_before_tasks
           (env0 ["eth"] None (Some "permission denied"))
           (app0 (cfg None postgres0)) [Signal; MainResumes]
           {| URL := "postgres://monitor" |} "permission denied");
    reflexivity.
Defined.

(** ** The order of registration *)

Lemma filter_none (f : Event -> bool) (K : Event -> Prop) (l : list Event) :
  Forall K l -> (forall e, K e -> f e = false) -> filter f l = [].
Proof.
  intros H Hf. induction H as [| e l He _ IH]; [reflexivity |].
  cbn. now rewrite (Hf e He).
Qed.

Lemma tail_kinds (a : app) (closes : list Event) (o : Outcome app)
  (w : World) (tail : list Event) :
  Forall (eq EvClose) closes ->
  ended a closes o w tail ->
  Forall (fun e => match e with
                   | EvWait _ | EvLog FatalLevel _ _ | EvClose => True
                   | _ => False
                   end) tail.
Proof.
  intros Hc. destruct o as [a' | c | m |]; cbn.
  - intros (_ & -> & _). constructor; [exact I |].
    revert Hc. apply Forall_impl. now intros e <-.
  - intros (_ & e & -> & _). repeat constructor.
  - contradiction.
  - intros ->. constructor.
Qed.

Lemma closes_are_closes (a : app) :
  Forall (eq EvClose) (map (fun _ => EvClose) (closing a)).
Proof.
  apply Forall_forall. intros e He. apply in_map_iff in He.
  now destruct He as [d [<- _]].
Qed.

Lemma startup_adds (E : Env) (a : app) :
  filter is_add (startup_events E a) = map EvAdd (added E a).
Proof.
  unfold startup_events, store_events, console_events, added, store_ready.
  destruct (console_wanted (config a));
    destruct (Postgres (Outputs (config a))) as [pg |]; cbn;
    try destruct (Connect E (URL pg)); cbn;
    try destruct (MigrateSchema E _); reflexivity.
Qed.

Lemma ready_added (E : Env) (a : app) :
  store_ready E a = true -> added E a = registered a.
Proof.
  intros Hr. unfold added, registered. rewrite Hr.
  now destruct (Postgres (Outputs (config a))).
Qed.

(** X2. In every run the calls of [Add], in order, are: the console
    destination if it is wanted, then the store if it is configured and it
    connected and migrated; nothing else is ever added, and after a
    successful start-up the collection holds exactly these, in this
    order. *)
Theorem console_registered_before_store (E : Env) (a : app)
  (s : list Action) :
  filter is_add (trace (snd (Run E a (initial s)))) = map EvAdd (added E a) /\
  (store_ready E a = true ->
   outputs (snd (Run E a (initial s))) = added E a).
Proof.
  pose proof (Run_shape E a s) as H. unfold run_shape in H.
  destruct (Run E a (initial s)) as [o w]. cbn [fst snd].
  destruct (store_ready E a) eqn:Hr.
  - destruct H as (sig & body & tail & Htr & Hsig & Hbody & _ & Hout & _
                   & Hend).
    split; [| intros _; now rewrite Hout, ready_added].
    rewrite Htr, !filter_app, startup_adds.
    rewrite (@filter_none is_add _ sig Hsig) by (now intros e <-).
    rewrite (@filter_none is_add _ body Hbody)
      by (intros e He; destruct e; try reflexivity; contradiction).
    rewrite (@filter_none is_add _ tail
               (@tail_kinds a _ o w tail (closes_are_closes a) Hend))
      by (intros e He; destruct e; try reflexivity; contradiction).
    now rewrite app_nil_r.
  - destruct H as (sig & Htr & Hsig & _). cbn in Htr.
    split; [| discriminate].
    rewrite Htr, filter_app, startup_adds.
    now rewrite (@filter_none is_add _ sig Hsig) by (now intros e <-).
Qed.

Lemma console_registered_before_store_witness :
  let r := Run (env0 ["eth"] None None) (app0 (cfg None postgres0))
               (initial [MainResumes; MainResumes;
                         ChainEmits "eth" "Transfer"; MainResumes;
                         ServerReturns None;
                         ChainLoopEnds "eth" LoopCancelled]) in
  filter is_add (trace (snd r)) = [EvAdd LoggerOutput; EvAdd Database] /\
  outputs (snd r) = [LoggerOutput; Database].
Proof.
  destruct (console_registered_before_store (env0 ["eth"] None None)
              (app0 (cfg None postgres0))
              [MainResumes; MainResumes; ChainEmits "eth" "Transfer";
               MainResumes; ServerReturns None;
               ChainLoopEnds "eth" LoopCancelled]) as [Hadds Hout].
  split; [exact Hadds | exact (Hout eq_refl)].
Defined.

(** ** When the store is closed *)

(** X8. In every run the deferred [Close] of the store is called at most
    once, and it is called exactly when a Postgres section is present and
    [Run] returns; then it is the last event of the run. *)
Theorem close_runs_iff_run_returns (E : Env) (a : app) (s : list Action) :
  let r := Run E a (initial s) in
  count is_close (trace (snd r)) <= 1 /\
  (In EvClose (trace (snd r)) <->
   Postgres (Outputs (config a)) <> None /\ exists a', fst r = Returned a') /\
  (In EvClose (trace (snd r)) ->
   exists pre, trace (snd r) = pre ++ [EvClose] /\ ~ In EvClose pre).
Proof.
  cbn zeta.
  pose proof (Run_shape E a s) as H. unfold run_shape in H.
  destruct (Run E a (initial s)) as [o w]. cbn [fst snd].
  destruct (store_ready E a) eqn:Hr.
  - destruct H as (sig & body & tail & Htr & Hsig & Hbody & _ & _ & _ & Hend).
    assert (Hpre : ~ In EvClose (sig ++ startup_events E a ++ body)).
    { intros Hin.
      now destruct (@before_tail E a sig body _ Hr Hsig Hbody Hin). }
    assert (Hcount : count is_close (sig ++ startup_events E a ++ body) = 0).
    { apply count_none. intros e He. destruct e; try reflexivity.
      contradiction. }
    assert (Htr' : trace w = (sig ++ startup_events E a ++ body) ++ tail)
      by (rewrite Htr; now rewrite <- !app_assoc).
    rewrite Htr'. rewrite count_app, Hcount.
    destruct o as [a' | c | m |]; cbn in Hend.
    + destruct Hend as (_ & -> & _). unfold closing.
      destruct (Postgres (Outputs (config a))) as [pg |] eqn:Hp; cbn.
      * split; [unfold count; cbn; lia |]. split.
        -- split; [intros _; split; [discriminate | now exists a'] |].
           intros _. apply in_or_app. right. cbn. auto.
        -- intros _. exists ((sig ++ startup_events E a ++ body) ++ [EvWait None]).
           split; [rewrite <- (app_assoc _ [EvWait None] [EvClose]);
                   reflexivity |].
           intros Hin. apply in_app_or in Hin.
           destruct Hin as [Hin | [Hin | []]]; [now apply Hpre | discriminate].
      * split; [unfold count; cbn; lia |].
        assert (Hno : ~ In EvClose
                        ((sig ++ startup_events E a ++ body) ++ [EvWait None])).
        { intros Hin. apply in_app_or in Hin.
          destruct Hin as [Hin | [Hin | []]]; [now apply Hpre | discriminate]. }
        split; [split |]; try (intros Hin; now apply Hno in Hin).
        intros [Hne _]. now contradiction Hne.
    + destruct Hend as (_ & e & -> & _).
      assert (Hno : ~ In EvClose
                      ((sig ++ startup_events E a ++ body) ++
                       [EvWait (Some e);
                        EvLog FatalLevel "Application error: %v" [e]])).
      { intros Hin. apply in_app_or in Hin.
        destruct Hin as [Hin | [Hin | [Hin | []]]];
          [now apply Hpre | discriminate | discriminate]. }
      split; [unfold count; cbn; lia |].
      split; [split |]; try (intros Hin; now apply Hno in Hin).
      intros [_ [a' Ha']]. discriminate.
    + contradiction.
    + subst tail. rewrite app_nil_r.
      split; [unfold count; cbn; lia |].
      split; [split |]; try (intros Hin; now apply Hpre in Hin).
      intros [_ [a' Ha']]. discriminate.
  - destruct H as (sig & Htr & Hsig & Hexit). cbn in Htr, Hexit. subst o.
    assert (Hno : ~ In EvClose (trace w)).
    { rewrite Htr. intros Hin. apply in_app_or in Hin.
      destruct Hin as [Hin | Hin].
      - pose proof (@signal_only sig _ Hsig Hin). discriminate.
      - apply startup_only in Hin. exact Hin. }
    split.
    { rewrite (@count_none _ is_close (trace w)); [lia |].
      intros e He. destruct e; try reflexivity. contradiction. }
    split; [split |]; try (intros Hin; now apply Hno in Hin).
    intros [_ [a' Ha']]. discriminate.
Qed.

Lemma close_runs_iff_run_returns_witness :
  let r := Run (env0 ["eth"] None None) (app0 (cfg None postgres0))
               (initial [MainResumes; MainResumes; MainResumes; Signal;
                         ServerReturns None;
                         ChainLoopEnds "eth" LoopCancelled]) in
  count is_close (trace (snd r)) <= 1 /\
  In EvClose (trace (snd r)) /\
  exists pre, trace (snd r) = pre ++ [EvClose] /\ ~ In EvClose pre.
Proof.
  destruct (close_runs_iff_run_returns (env0 ["eth"] None None)
              (app0 (cfg None postgres0))
              [MainResumes; MainResumes; MainResumes; Signal;
               ServerReturns None; ChainLoopEnds "eth" LoopCancelled])
    as (Hcount & Hiff & Hlast).
  assert (Hin : In EvClose
                   (trace (snd (Run (env0 ["eth"] None None)
                                    (app0 (cfg None postgres0))
                                    (initial [MainResumes; MainResumes;
                                              MainResumes; Signal;
                                              ServerReturns None;
                                              ChainLoopEnds "eth"
                                                LoopCancelled]))))).
  { apply Hiff. split; [discriminate |]. eexists. reflexivity. }
  split; [exact Hcount |]. split; [exact Hin | exact (Hlast Hin)].
Defined.

(** ** The tasks handed to the group *)

Lemma step_trace (act : Action) (w : World) :
  exists es, trace (step act w) = trace w ++ es /\
             Forall (fun e => ~ main_event e) es.
Proof.
  destruct (step_stepped act w) as
    [act | Ha | c p Hin | c r Hin | Hin | e Hin Ho | e Hin Ho];
    cbn [trace emits].
  - exists []. split; [now rewrite app_nil_r | constructor].
  - eexists. split; [reflexivity |]. repeat constructor. auto.
  - eexists. split; [reflexivity |]. apply Forall_forall. intros e He.
    apply in_map_iff in He. destruct He as [o [<- _]]. auto.
  - eexists. split; [reflexivity |]. repeat constructor. auto.
  - eexists. split; [reflexivity |]. repeat constructor. auto.
  - eexists. split; [reflexivity |]. repeat constructor. auto.
  - eexists. split; [reflexivity |]. repeat constructor. auto.
Qed.

Lemma handed_stable (l : list Event) :
  stable any_action (fun w => filter is_handed (trace w) = l).
Proof.
  split; [| intros s w H; exact H].
  intros act w _ H. destruct (step_trace act w) as [es [-> Hes]].
  rewrite filter_app, H.
  rewrite (@filter_none is_handed _ es Hes);
    [apply app_nil_r |].
  intros e He. destruct e; try reflexivity. exfalso. apply He. exact I.
Qed.

Lemma handed_snoc (done : list Task) (t : Task) :
  handed (done ++ [t]) = handed done ++ [EvGo t (Some CtxGroup)].
Proof. unfold handed. now rewrite map_app. Qed.

Lemma launch_hands (a : app) (chains : list Chain) (w : World) :
  Context a = Some CtxGroup ->
  filter is_handed (trace w) = [] ->
  filter is_handed (trace (snd (launch a chains w))) =
  handed (tasks_of chains).
Proof.
  intros Hctx Hw.
  set (P := fun done w => filter is_handed (trace w) = handed done).
  assert (Hgo : forall X done t,
             triple (P done) (Go t (Some CtxGroup))
                    (fun _ => P (done ++ [t])) X).
  { intros X done t. apply triple_Go; [| apply handed_stable].
    intros w0 H0. unfold P in *. cbn.
    now rewrite filter_app, H0, handed_snoc. }
  assert (Hbody : forall X (done : list Chain) (x : Chain) (todo : list Chain),
             triple (P (map ChainTask done)) (Go (ChainTask x) (Some CtxGroup))
                    (fun _ => P (map ChainTask (done ++ [x]))) X).
  { intros X done x todo. rewrite map_app. apply Hgo. }
  assert (H : triple (P []) (launch a chains)
                     (fun _ => P (tasks_of chains))
                     (fun _ => P (tasks_of chains))).
  { unfold launch.
    eapply triple_bind with (R := fun _ => P (map ChainTask chains)).
    { apply (@triple_for_range Chain
               (fun done _ => P (map ChainTask done)) _ _
               (Hbody _) chains []). }
    intros [].
    eapply triple_bind with (R := fun _ => P (map ChainTask chains)).
    { unfold NewServer, log. apply triple_act. intros w0 H0.
      unfold P in *. cbn. rewrite filter_app, H0. cbn. apply app_nil_r. }
    intros [].
    eapply triple_bind with (R := fun _ => P (tasks_of chains)).
    { rewrite Hctx. apply Hgo. }
    intros [] w0 H0. rewrite finish_eq.
    pose proof (@wg_Wait_stable any_action _
                  (handed_stable (handed (tasks_of chains)))
                  (sched w0) w0 (any_plays _) H0) as Hwait.
    destruct (wg_Wait (sched w0) w0) as [[[] | c | m |] w']; cbn in Hwait;
      try (destruct Hwait as [_ Hwait]; exact Hwait).
    destruct Hwait as [Hwait _].
    destruct (g_err w') as [e |]; cbn; unfold P; cbn;
      rewrite !filter_app, Hwait; cbn; now rewrite ?app_nil_r. }
  specialize (H w Hw).
  destruct (launch a chains w) as [[a' | c | m |] w']; exact H.
Qed.

Lemma all_closes (ds : list Deferred) :
  Forall (eq EvClose) (map (fun _ => EvClose) ds).
Proof.
  apply Forall_forall. intros e He. apply in_map_iff in He.
  now destruct He as [d [<- _]].
Qed.

Lemma startup_hands_nothing (E : Env) (a : app) (sig : list Event) :
  Forall (eq EvSignal) sig ->
  filter is_handed (sig ++ startup_events E a) = [].
Proof.
  intros Hsig. rewrite filter_app.
  rewrite (@filter_none is_handed _ sig Hsig) by (now intros e <-).
  apply (@filter_none is_handed _ _ (startup_events_kind E a)).
  intros e He. destruct e; try reflexivity. contradiction.
Qed.

Lemma Run_hands_ready (E : Env) (a : app) (s : list Action) :
  store_ready E a = true ->
  filter is_handed (trace (snd (Run E a (initial s)))) =
  handed (tasks_of (chains_of E a)).
Proof.
  intros Hr. rewrite Run_phases, func_unwound. unfold bind.
  destruct (prelude_quiet s) as [w1 [-> (Hsig & _ & _)]].
  rewrite (@startup_ready E a w1 Hr).
  pose proof (@launch_hands (set_app_ctx a CtxGroup) (chains_of E a)
                (started_world E a w1) eq_refl
                (@startup_hands_nothing E a (trace w1) Hsig)) as H.
  destruct (launch (set_app_ctx a CtxGroup) (chains_of E a)
                   (started_world E a w1)) as [[a' | c | m |] w2];
    cbn [fst snd] in *; try exact H;
    rewrite unwound_emits; cbn; rewrite filter_app, H;
    rewrite (@filter_none is_handed _ _ (all_closes (deferred w2)))
      by (now intros e <-);
    apply app_nil_r.
Qed.

(** X5. In every run whose start-up succeeds the calls of [g.Go] are, in
    order, one for each chain in the order [NewChains] lists them (a chain
    listed twice is handed over twice) and then one for the server, each
    with the group's context; in a run whose start-up fails there is
    none. *)
Theorem tasks_handed_in_order (E : Env) (a : app) (s : list Action) :
  filter is_handed (trace (snd (Run E a (initial s)))) =
  if store_ready E a then handed (tasks_of (chains_of E a)) else [].
Proof.
  destruct (store_ready E a) eqn:Hr.
  - now apply Run_hands_ready.
  - pose proof (Run_shape E a s) as H. unfold run_shape in H.
    rewrite Hr in H. destruct H as (sig & Htr & Hsig & _).
    rewrite Htr. now apply startup_hands_nothing.
Qed.

(** ** What the outcome of a run tells *)

Lemma count_filter (f g : Event -> bool) (l : list Event) :
  (forall e, f e = true -> g e = true) ->
  count f (filter g l) = count f l.
Proof.
  intros H. induction l as [| e l IH]; [reflexivity |].
  cbn [filter]. destruct (g e) eqn:Hg.
  - now rewrite !count_cons, IH.
  - rewrite count_cons, IH. destruct (f e) eqn:Hf; [| reflexivity].
    rewrite (H e Hf) in Hg. discriminate.
Qed.

Lemma count_go_handed (t : Task) (ts : list Task) :
  count (is_go t) (handed ts) = count_occ Task_eq_dec ts t.
Proof.
  induction ts as [| x ts IH]; [reflexivity |].
  unfold handed in *. cbn [map]. rewrite count_cons, IH. cbn [is_go count_occ].
  destruct (Task_eq_dec t x), (Task_eq_dec x t); try congruence; lia.
Qed.

Lemma count_started (E : Env) (a : app) (s : list Action) (t : Task) :
  store_ready E a = true ->
  count (is_go t) (trace (snd (Run E a (initial s)))) =
  count_occ Task_eq_dec (tasks_of (chains_of E a)) t.
Proof.
  intros Hr. pose proof (@Run_hands_ready E a s Hr) as H.
  rewrite <- (@count_filter (is_go t) is_handed); [| now intros [] ].
  now rewrite H, count_go_handed.
Qed.

(** X6. After a successful start-up, under every schedule: no task returns
    more often than it was handed to the group.  If [Run] returns, every
    task has returned as often as it was handed over, every chain task with
    nil, and the server with nil and never with an error.  If [Run] exits,
    the same holds of the chain tasks, and the error in the fatal log is
    one the server returned.  [Run] never panics. *)
Theorem outcome_reflects_server (E : Env) (a : app) (s : list Action) :
  store_ready E a = true ->
  let r := Run E a (initial s) in
  (forall t, count (is_ret t) (trace (snd r)) <=
             count_occ Task_eq_dec (tasks_of (chains_of E a)) t) /\
  match fst r with
  | Returned _ =>
      (forall t, count (is_ret t) (trace (snd r)) =
                 count_occ Task_eq_dec (tasks_of (chains_of E a)) t) /\
      (forall c, In c (chains_of E a) ->
                 In (EvTaskReturn (ChainTask c) None) (trace (snd r))) /\
      In (EvTaskReturn ServerTask None) (trace (snd r)) /\
      (forall e, ~ In (EvTaskReturn ServerTask (Some e)) (trace (snd r)))
  | Exited _ =>
      (forall t, count (is_ret t) (trace (snd r)) =
                 count_occ Task_eq_dec (tasks_of (chains_of E a)) t) /\
      (forall c, In c (chains_of E a) ->
                 In (EvTaskReturn (ChainTask c) None) (trace (snd r))) /\
      exists e,
        In (EvTaskReturn ServerTask (Some e)) (trace (snd r)) /\
        In (EvLog FatalLevel "Application error: %v" [e]) (trace (snd r))
  | Panicked _ => False
  | Blocked => True
  end.
Proof.
  intros Hr. cbn zeta.
  pose proof (fun t => @count_started E a s t Hr) as Hstarted.
  pose proof (Run_events E a s) as Hev. rewrite Forall_forall in Hev.
  pose proof (Run_shape E a s) as H. unfold run_shape in H. rewrite Hr in H.
  destruct (Run E a (initial s)) as [o w]. cbn [fst snd] in *.
  destruct H as (sig & body & tail & Htr & Hsig & Hbody & Hgo & _ & Hg & Hend).
  pose proof Hg as (HK & HJ1 & HJ2 & _).
  split.
  { intros t. specialize (HK t). rewrite Hstarted in HK. lia. }
  assert (Htr' : trace w = (sig ++ startup_events E a ++ body) ++ tail)
    by (rewrite Htr; now rewrite <- !app_assoc).
  destruct (@ended_tail a o w tail Hend) as [_ Htail].
  assert (Hall : g_wg w = [] ->
                 (forall t, count (is_ret t) (trace w) =
                            count_occ Task_eq_dec (tasks_of (chains_of E a)) t)
                 /\
                 (forall t, In t (tasks_of (chains_of E a)) ->
                            exists r, In (EvTaskReturn t r) (trace w))).
  { intros Hwg. split.
    - intros t. specialize (HK t). rewrite Hstarted, Hwg in HK. cbn in HK. lia.
    - intros t Ht.
      destruct (@all_returned w _ tail t Hg Hwg Htr' Htail) as [r Hin].
      + apply in_or_app. right. apply in_or_app. right. now apply Hgo.
      + exists r. rewrite Htr'. apply in_or_app. now left. }
  assert (Hchains : g_wg w = [] ->
                    forall c, In c (chains_of E a) ->
                              In (EvTaskReturn (ChainTask c) None) (trace w)).
  { intros Hwg c Hc. destruct (Hall Hwg) as [_ Hret].
    destruct (Hret (ChainTask c)) as [r Hin].
    - unfold tasks_of. apply in_or_app. left. now apply in_map.
    - pose proof (Hev _ Hin) as Hnil. cbn in Hnil. now subst r. }
  destruct o as [a' | c | m |]; cbn in Hend; [| | contradiction | exact I].
  - destruct Hend as (_ & _ & Herr & Hwg & _).
    destruct (Hall Hwg) as [Hcount Hret].
    split; [exact Hcount |]. split; [now apply Hchains |].
    assert (Hno : forall e, ~ In (EvTaskReturn ServerTask (Some e)) (trace w))
      by (intros e Hin; now apply (HJ2 e Hin)).
    split; [| exact Hno].
    destruct (Hret ServerTask) as [r Hin].
    + unfold tasks_of. apply in_or_app. right. now left.
    + destruct r as [e |]; [now apply Hno in Hin | exact Hin].
  - destruct Hend as (_ & e & -> & Herr & Hwg & _).
    destruct (Hall Hwg) as [Hcount _].
    split; [exact Hcount |]. split; [now apply Hchains |].
    exists e. split; [now apply HJ1 |].
    rewrite Htr'. apply in_or_app. right. right. now left.
Qed.

Lemma outcome_reflects_server_witness :
  let r := Run (env0 ["eth"; "eth"] None None) (app0 (cfg None None))
               (initial [MainResumes; MainResumes;
                         ChainLoopEnds "eth" (LoopFailed "rpc timeout");
                         MainResumes; MainResumes; Signal;
                         ServerReturns None;
                         ChainLoopEnds "eth" LoopCancelled]) in
  fst r = Returned (set_app_ctx (app0 (cfg None None)) CtxGroup) /\
  count (is_ret (ChainTask "eth")) (trace (snd r)) = 2 /\
  In (EvTaskReturn ServerTask None) (trace (snd r)).
Proof.
  split; [reflexivity |].
  destruct (@outcome_reflects_server (env0 ["eth"; "eth"] None None)
              (app0 (cfg None None))
              [MainResumes; MainResumes;
               ChainLoopEnds "eth" (LoopFailed "rpc timeout");
               MainResumes; MainResumes; Signal; ServerReturns None;
               ChainLoopEnds "eth" LoopCancelled] eq_refl)
    as (_ & Hcount & _ & Hserver & _).
  split; [exact (Hcount (ChainTask "eth")) | exact Hserver].
Defined.

(** ** From [NewApp] to [Run] *)

(** X4. [NewApp] returns an app exactly when the logger is not nil and both
    the configuration and the contracts load; the contracts are loaded
    from the directory of the configuration path.  When the configuration
    does not load, the contracts are not attempted: the process exits with
    code 1 right after a fatal entry carrying the loader's error; likewise
    when the contracts do not load.  [NewApp] touches nothing of the world
    but the trace. *)
Theorem NewApp_outcome (E : Env) (p : string) (w : World) :
  let r := NewApp E p w in
  ((exists a, fst r = Returned a) <->
   exists z c cs,
     fst (zap_NewProduction E) = Some z /\
     LoadConfigJSON E p = inl c /\
     LoadContracts E c (path_Dir E p) = inl cs) /\
  (forall z err,
      fst (zap_NewProduction E) = Some z ->
      LoadConfigJSON E p = inr err ->
      fst r = Exited 1 /\
      trace (snd r) =
      trace w ++ [EvLog DebugLevel "Loading config from %s..." [p];
                  EvLog FatalLevel "Failed to read config file: %v" [err]]) /\
  (forall z c err,
      fst (zap_NewProduction E) = Some z ->
      LoadConfigJSON E p = inl c ->
      LoadContracts E c (path_Dir E p) = inr err ->
      fst r = Exited 1 /\
      trace (snd r) =
      trace w ++ [EvLog DebugLevel "Loading config from %s..." [p];
                  EvLog DebugLevel "Configuring contracts..." [];
                  EvLog FatalLevel "Failed to configure contracts: %v"
                        [err]]) /\
  (exists es, snd r = emits es w).
Proof.
  cbn zeta. unfold NewApp, Sugar, Debugf, Debug, Fatalf, log, os_Exit, act,
    panic, ret, bind.
  destruct (zap_NewProduction E) as [[z |] e]; cbn.
  - destruct (LoadConfigJSON E p) as [c | err]; cbn.
    + destruct (LoadContracts E c (path_Dir E p)) as [cs | err] eqn:Hcs; cbn.
      * split; [| split; [| split]].
        -- split; [intros _; exists z, c, cs; auto | intros _; eauto].
        -- intros z' err' _ H. discriminate.
        -- intros z' c' err' _ H1 H2. injection H1 as <-.
           rewrite Hcs in H2. discriminate.
        -- eexists [_; _]. apply World_eq; cbn; try reflexivity.
           now rewrite <- app_assoc.
      * split; [| split; [| split]].
        -- split; [intros [a H]; discriminate |].
           intros (z' & c' & cs' & _ & H1 & H2). injection H1 as <-.
           rewrite Hcs in H2. discriminate.
        -- intros z' err' _ H. discriminate.
        -- intros z' c' err' _ H1 H2. injection H1 as <-.
           rewrite Hcs in H2. injection H2 as <-. split; [reflexivity |].
           now rewrite <- !app_assoc.
        -- eexists [_; _; _]. apply World_eq; cbn; try reflexivity.
           now rewrite <- !app_assoc.
    + split; [| split; [| split]].
      * split; [intros [a H]; discriminate |].
        intros (z' & c' & cs' & _ & H1 & _). discriminate.
      * intros z' err' _ H. injection H as <-. split; [reflexivity |].
        now rewrite <- app_assoc.
      * intros z' c' err' _ H. discriminate.
      * eexists [_; _]. apply World_eq; cbn; try reflexivity.
        now rewrite <- app_assoc.
  - split; [| split; [| split]].
    + split; [intros [a H]; discriminate |].
      intros (z' & c' & cs' & H & _). discriminate.
    + intros z' err' H. discriminate.
    + intros z' c' err' H. discriminate.
    + exists []. now rewrite emits_nil.
Qed.

Lemma NewApp_outcome_witness :
  let r := NewApp env_unreadable "config.json" (initial []) in
  fst r = Exited 1 /\
  trace (snd r) =
  [EvLog DebugLevel "Loading config from %s..." ["config.json"];
   EvLog FatalLevel "Failed to read config file: %v"
         ["open config.json: no such file"]].
Proof.
  destruct (NewApp_outcome env_unreadable "config.json" (initial []))
    as (_ & Hconfig & _).
  exact (Hconfig {| zap_id := 0 |} "open config.json: no such file"
                 eq_refl eq_refl).
Defined.


